(** * Decision-making criteria over a profit matrix

    A shallow embedding of [setm::minimax], [setm::savage] and
    [setm::hurwicz] as they are written in [decision_criteria.cpp] (the
    variant over [std::array]) and in [decision_criterion.cpp] (the variant
    over generic ranges), together with the properties of the written
    specification that were checked against them.

    The only operations the code performs on the elements of the matrix
    are [operator<], [-], [*] and [+].  The elements are compared in a
    totally ordered ring ([realDomainType]).  In [DecisionCriteria] and
    [DecisionCriterion] the three arithmetic operations are those of the
    ring: what depends only on the order of the elements, and on where a
    result is defined, is stated of them.  In [Native] the three
    operations are parameters, since a narrow integer type wraps around
    and a floating-point type rounds: what depends on the arithmetic is
    stated there, under the condition on the operations that it needs.
    The order is total: the NaN of a floating-point type is outside the
    model.

    A profit matrix is a sequence of rows; the template parameters [rows]
    and [columns] are explicit arguments wherever the code reads them.
    Every operation whose behaviour is undefined in C++ (reducing an empty
    range, dereferencing a past-the-end iterator, indexing outside an
    array) yields [None]. *)

Set Warnings "-notation-overridden,-ambiguous-paths,-rewrite-rw".
From mathcomp Require Import ssreflect ssrfun ssrbool eqtype ssrnat seq order.
From mathcomp Require Import ssralg ssrnum ssrint rat intdiv.

Set Implicit Arguments.
Unset Strict Implicit.
Unset Printing Implicit Defensive.

Import Order.TTheory GRing.Theory Num.Theory.
Local Open Scope ring_scope.

Declare Scope cpp_scope.
Delimit Scope cpp_scope with cpp.
Notation "'do' x <- e ; k" := (obind (fun x => k) e)
  (at level 10, x name, e at level 100, k at level 200,
   format "'[v' 'do'  x  <-  e ; '/' k ']'") : cpp_scope.
Local Open Scope cpp_scope.

(** ** The pieces of the standard library the code calls *)

Module Std.
Section Algorithms.
Variable T : realDomainType.
Implicit Types (r : seq T) (a b : T).

(** [std::max(a, b)] is [(a < b) ? b : a]. *)
Definition max a b : T := if a < b then b else a.

(** [std::ranges::max(r)]: the running result starts at the first element
    and is replaced by a later element [tmp] when [result < tmp].  The
    range must not be empty. *)
Definition ranges_max r : option T :=
  if r is first :: rest
  then Some (foldl (fun result tmp => if result < tmp then tmp else result)
                   first rest)
  else None.

(** [std::ranges::min(r)]: as above, replaced when [tmp < result]. *)
Definition ranges_min r : option T :=
  if r is first :: rest
  then Some (foldl (fun result tmp => if tmp < result then tmp else result)
                   first rest)
  else None.

(** Iterators into a sequence are positions; [size r] is the past-the-end
    iterator, and dereferencing it is undefined. *)
Definition deref r (it : nat) : option T := onth r it.

(** [std::ranges::min_element(r)]: the position of the first smallest
    element; the end iterator when [r] is empty. *)
Definition min_element r : nat :=
  foldl (fun first i => if nth 0 r i < nth 0 r first then i else first)
        0%N (iota 1 (size r).-1).

(** [std::ranges::max_element(r)]: the position of the first largest
    element; the end iterator when [r] is empty. *)
Definition max_element r : nat :=
  foldl (fun first i => if nth 0 r first < nth 0 r i then i else first)
        0%N (iota 1 (size r).-1).

End Algorithms.

(** [r | std::views::transform(f)], read from its first to its last
    element: undefined as soon as one application of [f] is. *)
Fixpoint transform (A B : Type) (f : A -> option B) (r : seq A)
  : option (seq B) :=
  if r is x :: rest
  then do y <- f x; do ys <- transform f rest; Some (y :: ys)
  else Some [::].

(** [for (auto i{0uz}; i < n; ++i) body], threading the state the body
    updates. *)
Definition for_loop (S : Type) (n : nat) (body : nat -> S -> option S)
    (s : S) : option S :=
  foldl (fun st i => do s' <- st; body i s') (Some s) (iota 0 n).

End Std.

(** ** Profit matrices *)

Section Matrix.
Variable T : realDomainType.

Definition matrix := seq (seq T).

(** The shape [std::array<std::array<T, columns>, rows>] fixes. *)
Definition rect (rows columns : nat) (m : matrix) : bool :=
  (size m == rows) && all (fun row => size row == columns) m.

(** [m[row][col] = v]; both subscripts must be inside the arrays. *)
Definition assign (m : matrix) (row col : nat) (v : T) : option matrix :=
  do r <- onth m row;
  if (col < size r)%N then Some (set_nth [::] m row (set_nth 0 r col v))
  else None.

End Matrix.

(** ** decision_criteria.cpp: the variant over [std::array] *)

Module DecisionCriteria.
Section Criteria.
Variable T : realDomainType.
Implicit Types (profits : matrix T) (row : seq T).

Definition minimax profits : option T :=
  do minima <- Std.transform
                 (fun row => Std.deref row (Std.min_element row)) profits;
  Std.ranges_max minima.

(** The two nested loops of [savage], on the by-value parameter [profits]:
    the state threaded through them is that working copy. *)
Definition regret_column (rows col : nat) profits : option (matrix T) :=
  do column <- Std.transform (fun row => onth row col) profits;
  do max_value <- Std.ranges_max column;
  Std.for_loop rows
    (fun (row : nat) profits =>
       do r <- onth profits row;
       do x <- onth r col;
       assign profits row col (max_value - x))
    profits.

Definition regret_transform (rows columns : nat) profits
  : option (matrix T) :=
  Std.for_loop columns (regret_column rows) profits.

(** The body of [savage]: the value it returns, and the state in which it
    leaves its parameter. *)
Definition savage_body (rows columns : nat) profits
  : option (T * matrix T) :=
  do profits <- regret_transform rows columns profits;
  do maxima <- Std.transform
                 (fun row => Std.deref row (Std.max_element row)) profits;
  do result <- Std.ranges_min maxima;
  Some (result, profits).

Definition savage (rows columns : nat) profits : option T :=
  omap fst (savage_body rows columns profits).

(** [lowest] stands for [std::numeric_limits<T>::lowest()]. *)
Definition hurwicz (lowest : T) profits (coefficient : T) : option T :=
  foldl (fun st row =>
           do max_value <- st;
           do min_outcome <- Std.deref row (Std.min_element row);
           do max_outcome <- Std.deref row (Std.max_element row);
           let hurwicz_value :=
             coefficient * min_outcome + (1 - coefficient) * max_outcome in
           Some (Std.max max_value hurwicz_value))
        (Some lowest) profits.

End Criteria.
End DecisionCriteria.

(** ** decision_criterion.cpp: the variant over generic ranges *)

Module DecisionCriterion.
Section Criterion.
Variable T : realDomainType.
Implicit Types (profits rng : matrix T) (row : seq T).

Definition minimax profits : option T :=
  do minima <- Std.transform
                 (fun row => Std.deref row (Std.min_element row)) profits;
  Std.ranges_max minima.

Definition regret_column (rows col : nat) profits : option (matrix T) :=
  do column <- Std.transform (fun row => onth row col) profits;
  do max_value <- Std.ranges_max column;
  Std.for_loop rows
    (fun (row : nat) profits =>
       do r <- onth profits row;
       do x <- onth r col;
       assign profits row col (max_value - x))
    profits.

Definition regret_transform (rows columns : nat) profits
  : option (matrix T) :=
  Std.for_loop columns (regret_column rows) profits.

(** The body of [savage]: the value it returns, and the state in which it
    leaves its parameter. *)
Definition savage_body (rows columns : nat) profits
  : option (T * matrix T) :=
  do profits <- regret_transform rows columns profits;
  do maxima <- Std.transform
                 (fun row => Std.deref row (Std.max_element row)) profits;
  do result <- Std.ranges_min maxima;
  Some (result, profits).

Definition savage (rows columns : nat) profits : option T :=
  omap fst (savage_body rows columns profits).

Definition hurwicz rng (coefficient : T) : option T :=
  do values <- Std.transform
                 (fun row =>
                    do min_outcome <- Std.deref row (Std.min_element row);
                    do max_outcome <- Std.deref row (Std.max_element row);
                    Some (coefficient * min_outcome
                          + (1 - coefficient) * max_outcome))
                 rng;
  Std.ranges_max values.

End Criterion.
End DecisionCriterion.

(** ** The vocabulary of the specification *)

Section Specification.
Variable T : realDomainType.
Implicit Types (v w x alpha : T) (s r row : seq T) (M R : matrix T).

(** [v] is the maximum of [s]: an element of [s] that no element exceeds. *)
Definition is_max v s : bool := (v \in s) && all (fun x => x <= v) s.

(** [v] is the minimum of [s]: an element of [s] below every element. *)
Definition is_min v s : bool := (v \in s) && all (fun x => v <= x) s.

(** [vs] lists, row by row, a value that [P] relates to that row. *)
Definition rowwise (P : seq T -> T -> Prop) M (vs : seq T) : Prop :=
  size vs = size M /\
  forall i, (i < size M)%N -> P (nth [::] M i) (nth 0 vs i).

(** max over rows r of (min over columns c of M[r][c]). *)
Definition max_of_row_minima M v : Prop :=
  exists2 minima, rowwise (fun row m => is_min m row) M minima
                & is_max v minima.

(** max over rows r of (max over columns c of M[r][c]). *)
Definition max_of_row_maxima M v : Prop :=
  exists2 maxima, rowwise (fun row m => is_max m row) M maxima
                & is_max v maxima.

(** min over rows r of (max over columns c of R[r][c]). *)
Definition min_of_row_maxima R v : Prop :=
  exists2 maxima, rowwise (fun row m => is_max m row) R maxima
                & is_min v maxima.

(** M[r][c], and column c of M. *)
Definition cell M (i c : nat) : T := nth 0 (nth [::] M i) c.
Definition column M (c : nat) : seq T := [seq nth 0 row c | row <- M].

(** R is the regret matrix of M:
    R[i][c] = (max over all rows i' of M[i'][c]) - M[i][c]. *)
Definition is_regret (rows columns : nat) M R : Prop :=
  rect rows columns R /\
  forall i c, (i < rows)%N -> (c < columns)%N ->
    exists2 cmax, is_max cmax (column M c) & cell R i c = cmax - cell M i c.

(** alpha * min(row) + (1 - alpha) * max(row). *)
Definition is_blend alpha row v : Prop :=
  exists mn mx, [/\ is_min mn row, is_max mx row
                  & v = alpha * mn + (1 - alpha) * mx].

(** max over rows r of (alpha * min(row r) + (1 - alpha) * max(row r)). *)
Definition max_of_row_blends alpha M v : Prop :=
  exists2 blends, rowwise (is_blend alpha) M blends & is_max v blends.

(** The matrix with its columns rearranged: column [c] of the result is
    column [nth 0 sigma c] of [M]. *)
Definition permute_columns (sigma : seq nat) M : matrix T :=
  [seq [seq nth 0 row c | c <- sigma] | row <- M].

(** [M'] is [M] with its rows permuted, or with its columns permuted. *)
Definition rows_permuted M M' : Prop := perm_eq M' M.
Definition columns_permuted (columns : nat) M M' : Prop :=
  exists2 sigma, perm_eq sigma (iota 0 columns)
               & M' = permute_columns sigma M.

End Specification.

(** ** Closed forms of what the code computes *)

Section ClosedForms.
Variable T : realDomainType.
Implicit Types (alpha lowest : T) (r row : seq T) (M : matrix T).

Definition row_min r : T := nth 0 r (Std.min_element r).
Definition row_max r : T := nth 0 r (Std.max_element r).
Definition seq_max r : T := odflt 0 (Std.ranges_max r).
Definition seq_min r : T := odflt 0 (Std.ranges_min r).
Definition col_max M (c : nat) : T := seq_max (column M c).

Definition blend alpha row : T :=
  alpha * row_min row + (1 - alpha) * row_max row.

(** The working copy of [savage] when its outer loop is at column [k] and
    its inner loop at row [j]. *)
Definition regret_upto (rows columns : nat) M (k j : nat) : matrix T :=
  mkseq (fun i =>
    mkseq (fun c => if (c < k)%N || (c == k) && (i < j)%N
                    then col_max M c - cell M i c else cell M i c)
          columns)
    rows.

Definition regret (rows columns : nat) M : matrix T :=
  regret_upto rows columns M columns 0.

End ClosedForms.

(** ** The same functions over the arithmetic of the element type

    [DecisionCriteria] and [DecisionCriterion] above subtract, multiply and
    add in the ordered ring in which the elements are compared.  The code
    uses [operator-], [operator*] and [operator+] of [T], whose results are
    stored back into [T]: a narrow integer type wraps, a floating-point
    type rounds.  Here those three operations are parameters, bound by no
    law; the modules above are the instance at the exact operations. *)

Module Native.

Module DecisionCriteria.
Section Criteria.
Variable T : realDomainType.
Variables sub mul add : T -> T -> T.
Implicit Types (profits : matrix T) (row : seq T).

Definition regret_column (rows col : nat) profits : option (matrix T) :=
  do column <- Std.transform (fun row => onth row col) profits;
  do max_value <- Std.ranges_max column;
  Std.for_loop rows
    (fun (row : nat) profits =>
       do r <- onth profits row;
       do x <- onth r col;
       assign profits row col (sub max_value x))
    profits.

Definition regret_transform (rows columns : nat) profits
  : option (matrix T) :=
  Std.for_loop columns (regret_column rows) profits.

Definition savage_body (rows columns : nat) profits
  : option (T * matrix T) :=
  do profits <- regret_transform rows columns profits;
  do maxima <- Std.transform
                 (fun row => Std.deref row (Std.max_element row)) profits;
  do result <- Std.ranges_min maxima;
  Some (result, profits).

Definition savage (rows columns : nat) profits : option T :=
  omap fst (savage_body rows columns profits).

Definition hurwicz (lowest : T) profits (coefficient : T) : option T :=
  foldl (fun st row =>
           do max_value <- st;
           do min_outcome <- Std.deref row (Std.min_element row);
           do max_outcome <- Std.deref row (Std.max_element row);
           let hurwicz_value :=
             add (mul coefficient min_outcome)
                 (mul (sub 1 coefficient) max_outcome) in
           Some (Std.max max_value hurwicz_value))
        (Some lowest) profits.

End Criteria.
End DecisionCriteria.

Module DecisionCriterion.
Section Criterion.
Variable T : realDomainType.
Variables sub mul add : T -> T -> T.
Implicit Types (profits rng : matrix T) (row : seq T).

Definition regret_column (rows col : nat) profits : option (matrix T) :=
  do column <- Std.transform (fun row => onth row col) profits;
  do max_value <- Std.ranges_max column;
  Std.for_loop rows
    (fun (row : nat) profits =>
       do r <- onth profits row;
       do x <- onth r col;
       assign profits row col (sub max_value x))
    profits.

Definition regret_transform (rows columns : nat) profits
  : option (matrix T) :=
  Std.for_loop columns (regret_column rows) profits.

Definition savage_body (rows columns : nat) profits
  : option (T * matrix T) :=
  do profits <- regret_transform rows columns profits;
  do maxima <- Std.transform
                 (fun row => Std.deref row (Std.max_element row)) profits;
  do result <- Std.ranges_min maxima;
  Some (result, profits).

Definition savage (rows columns : nat) profits : option T :=
  omap fst (savage_body rows columns profits).

Definition hurwicz rng (coefficient : T) : option T :=
  do values <- Std.transform
                 (fun row =>
                    do min_outcome <- Std.deref row (Std.min_element row);
                    do max_outcome <- Std.deref row (Std.max_element row);
                    Some (add (mul coefficient min_outcome)
                              (mul (sub 1 coefficient) max_outcome)))
                 rng;
  Std.ranges_max values.

End Criterion.
End DecisionCriterion.

Section Vocabulary.
Variable T : realDomainType.
Variables sub mul add : T -> T -> T.
Implicit Types (v alpha lowest : T) (row : seq T) (M R : matrix T).

(** R is the regret matrix of M, the differences taken in [T]. *)
Definition is_regret (rows columns : nat) M R : Prop :=
  rect rows columns R /\
  forall i c, (i < rows)%N -> (c < columns)%N ->
    exists2 cmax, is_max cmax (column M c)
                & cell R i c = sub cmax (cell M i c).

(** alpha * min(row) + (1 - alpha) * max(row), computed in [T]. *)
Definition is_blend alpha row v : Prop :=
  exists mn mx, [/\ is_min mn row, is_max mx row
                  & v = add (mul alpha mn) (mul (sub 1 alpha) mx)].

Definition max_of_row_blends alpha M v : Prop :=
  exists2 blends, rowwise (is_blend alpha) M blends & is_max v blends.

Definition blend alpha row : T :=
  add (mul alpha (row_min row)) (mul (sub 1 alpha) (row_max row)).

(** The working copy of [savage] when its outer loop is at column [k] and
    its inner loop at row [j]. *)
Definition regret_upto (rows columns : nat) M (k j : nat) : matrix T :=
  mkseq (fun i =>
    mkseq (fun c => if (c < k)%N || (c == k) && (i < j)%N
                    then sub (col_max M c) (cell M i c) else cell M i c)
          columns)
    rows.

Definition regret (rows columns : nat) M : matrix T :=
  regret_upto rows columns M columns 0.

(** On the entries of [M], a smaller value taken from a larger one in [T]
    is not negative: the subtraction does not wrap around. *)
Definition sub_no_wrap M : Prop :=
  forall x y, x \in flatten M -> y \in flatten M -> y <= x -> 0 <= sub x y.

(** On the entries of [M], the difference in [T] of a smaller value from a
    larger one is 0 exactly when the two are equal. *)
Definition sub_zero M : Prop :=
  forall x y, x \in flatten M -> y \in flatten M -> y <= x ->
    (sub x y == 0) = (x == y).

(** On the entries of [M], the weighted sum at the coefficients 1 and 0 is
    computed exactly in [T]. *)
Definition boundary_exact M : Prop :=
  forall m x, m \in flatten M -> x \in flatten M ->
    add (mul 1 m) (mul (sub 1 1) x) = m
    /\ add (mul 0 m) (mul (sub 1 0) x) = x.

End Vocabulary.

End Native.

(** The conversion to [signed char] of an [int] result, modulo 2^8, and the
    subtraction of two [signed char]: the operands are promoted, the
    difference is stored back. *)
Definition to_signed_char (z : int) : int := ((z + 128) %% 256)%Z - 128.
Definition signed_char_sub (x y : int) : int := to_signed_char (x - y).

(** ** Calls: whose matrix is written

    Objects live in a store and are named by their position in it.  A
    function that takes its matrix by value, as both variants of [savage]
    do, has its parameter copy-constructed as a fresh object; the body
    reads and writes that object only, and the object is destroyed on
    return.  The result is the returned value, the store as the body left
    it, and the store after the return. *)

Section Calls.
Variable T : realDomainType.

Definition store := seq (matrix T).

Definition call_by_value (body : matrix T -> option (T * matrix T))
    (arg : nat) (st : store) : option (T * store * store) :=
  do m <- onth st arg;
  let param := size st in
  let st1 := rcons st m in
  do profits <- onth st1 param;
  do res <- body profits;
  let st2 := set_nth [::] st1 param res.2 in
  Some (res.1, st2, take param st2).

End Calls.

(** ** The matrix of [main] *)

Definition reference : matrix int :=
  [:: [:: 15; 10; 0; -6; 17];
      [:: 3; 14; 8; 9; 2];
      [:: 1; 5; 14; 20; -3];
      [:: 7; 19; 10; 2; 0]].

(** The same matrix over the rationals, where the coefficient 0.8 of [main]
    is 4/5. *)
Definition reference_rat : matrix rat :=
  [seq [seq x%:Q | x <- row] | row <- reference].

(** The same matrix with its columns in the order 4, 2, 0, 1, 3. *)
Definition reference_columns_permuted : matrix int :=
  permute_columns [:: 4; 2; 0; 1; 3]%N reference.

(** ** Transformations of a matrix *)

Section Transformations.
Variable T : realDomainType.
Implicit Types (M : matrix T) (row : seq T).

(** [f] applied to every entry. *)
Definition map_matrix (f : T -> T) M : matrix T :=
  [seq [seq f x | x <- row] | row <- M].

(** Row [i] holds, in every column, the maximum of that column. *)
Definition dominant (columns : nat) M (i : nat) : bool :=
  all (fun c => is_max (cell M i c) (column M c)) (iota 0 columns).

(** [M] is below [M'], entry by entry. *)
Definition entrywise_le (rows columns : nat) M M' : bool :=
  all (fun i => all (fun c => cell M i c <= cell M' i c) (iota 0 columns))
      (iota 0 rows).

End Transformations.

(** * Properties *)

Lemma onth_size (A : Type) (x0 : A) (s : seq A) i :
  (i < size s)%N -> onth s i = Some (nth x0 s i).
Proof. by elim: s i => [|x s IHs] [|i] //=; apply: IHs. Qed.

Lemma eq_in_mkseq (A : Type) (f g : nat -> A) n :
  (forall i, (i < n)%N -> f i = g i) -> mkseq f n = mkseq g n.
Proof. by move=> fg; apply/eq_in_map => i; rewrite mem_iota; apply: fg. Qed.

Section Extrema.
Variable T : realDomainType.
Implicit Types (v w x : T) (s r : seq T).

Lemma is_max_uniq s v w : is_max v s -> is_max w s -> v = w.
Proof.
move=> /andP[vs /allP vmax] /andP[ws /allP wmax].
by apply/le_anti; rewrite (wmax _ vs) (vmax _ ws).
Qed.

Lemma is_min_uniq s v w : is_min v s -> is_min w s -> v = w.
Proof.
move=> /andP[vs /allP vmin] /andP[ws /allP wmin].
by apply/le_anti; rewrite (wmin _ vs) (vmin _ ws).
Qed.

Lemma perm_is_max s r v : perm_eq s r -> is_max v s = is_max v r.
Proof. by move=> sr; rewrite /is_max (perm_mem sr) (perm_all _ sr). Qed.

Lemma perm_is_min s r v : perm_eq s r -> is_min v s = is_min v r.
Proof. by move=> sr; rewrite /is_min (perm_mem sr) (perm_all _ sr). Qed.

(** *** The two value reductions *)

Lemma foldl_max_is_max x s :
  is_max (foldl (fun result tmp => if result < tmp then tmp else result) x s)
         (x :: s).
Proof.
rewrite -[foldl _ _ _]/(foldl Order.max x s).
elim/last_ind: s => [|s y /andP[IHin /allP IHall]].
  by rewrite /is_max /= mem_seq1 eqxx lexx.
rewrite foldl_rcons /is_max -rcons_cons mem_rcons all_rcons.
set m := foldl _ _ _ in IHin IHall *.
apply/and3P; split.
- by rewrite inE; case: (ltP m y) => my; rewrite ?eqxx ?IHin ?orbT.
- by rewrite le_max lexx orbT.
- by apply/allP => z zs; rewrite le_max (IHall _ zs).
Qed.

Lemma foldl_min_is_min x s :
  is_min (foldl (fun result tmp => if tmp < result then tmp else result) x s)
         (x :: s).
Proof.
rewrite -[foldl _ _ _]/(foldl (fun a b => Order.min b a) x s).
elim/last_ind: s => [|s y /andP[IHin /allP IHall]].
  by rewrite /is_min /= mem_seq1 eqxx lexx.
rewrite foldl_rcons /is_min -rcons_cons mem_rcons all_rcons.
set m := foldl _ _ _ in IHin IHall *.
apply/and3P; split.
- by rewrite inE; case: (ltP y m) => my; rewrite ?eqxx ?IHin ?orbT.
- by rewrite ge_min lexx.
- by apply/allP => z zs; rewrite ge_min (IHall _ zs) orbT.
Qed.

Lemma ranges_max_is_max s :
  s != [::] -> exists2 v, Std.ranges_max s = Some v & is_max v s.
Proof. by case: s => [|x s] // _; eexists; last exact: foldl_max_is_max. Qed.

Lemma ranges_min_is_min s :
  s != [::] -> exists2 v, Std.ranges_min s = Some v & is_min v s.
Proof. by case: s => [|x s] // _; eexists; last exact: foldl_min_is_min. Qed.

Lemma ranges_max_seq_max s :
  s != [::] -> Std.ranges_max s = Some (seq_max s) /\ is_max (seq_max s) s.
Proof. by rewrite /seq_max => /ranges_max_is_max[v ->]. Qed.

Lemma ranges_min_seq_min s :
  s != [::] -> Std.ranges_min s = Some (seq_min s) /\ is_min (seq_min s) s.
Proof. by rewrite /seq_min => /ranges_min_is_min[v ->]. Qed.

(** *** The two position reductions *)

Lemma min_element_loop r first k n :
    (first < k)%N -> (k + n = size r)%N ->
    (forall i, (i < k)%N -> nth 0 r first <= nth 0 r i) ->
  let j := foldl (fun first i => if nth 0 r i < nth 0 r first then i else first)
                 first (iota k n) in
  (j < size r)%N /\ (forall i, (i < size r)%N -> nth 0 r j <= nth 0 r i).
Proof.
elim: n first k => [|n IHn] first k fk kn below /=.
  by rewrite addn0 in kn; rewrite -kn; split=> //; exact: ltn_trans fk _.
apply: IHn; first by case: ifP => _ //; exact: ltnW.
  by rewrite addSnnS.
move=> i; rewrite ltnS leq_eqVlt => /orP[/eqP-> | ik].
  by case: ltP => //.
case: ltP => [kf | _]; last exact: below.
by apply: le_trans (below _ ik); exact: ltW.
Qed.

Lemma max_element_loop r first k n :
    (first < k)%N -> (k + n = size r)%N ->
    (forall i, (i < k)%N -> nth 0 r i <= nth 0 r first) ->
  let j := foldl (fun first i => if nth 0 r first < nth 0 r i then i else first)
                 first (iota k n) in
  (j < size r)%N /\ (forall i, (i < size r)%N -> nth 0 r i <= nth 0 r j).
Proof.
elim: n first k => [|n IHn] first k fk kn above /=.
  by rewrite addn0 in kn; rewrite -kn; split=> //; exact: ltn_trans fk _.
apply: IHn; first by case: ifP => _ //; exact: ltnW.
  by rewrite addSnnS.
move=> i; rewrite ltnS leq_eqVlt => /orP[/eqP-> | ik].
  by case: ltP => //.
case: ltP => [kf | _]; last exact: above.
by apply: le_trans (above _ ik) _; exact: ltW.
Qed.

Lemma min_element_size r : r != [::] -> (Std.min_element r < size r)%N.
Proof.
case: r => [|x s] // _.
have [] // := @min_element_loop (x :: s) 0%N 1%N (size s).
by case=> // _; rewrite lexx.
Qed.

Lemma max_element_size r : r != [::] -> (Std.max_element r < size r)%N.
Proof.
case: r => [|x s] // _.
have [] // := @max_element_loop (x :: s) 0%N 1%N (size s).
by case=> // _; rewrite lexx.
Qed.

Lemma row_min_is_min r : r != [::] -> is_min (row_min r) r.
Proof.
move=> r0; rewrite /is_min /row_min mem_nth ?min_element_size //=.
apply/(all_nthP 0); case: r r0 => [|x s] // _.
have [] // := @min_element_loop (x :: s) 0%N 1%N (size s).
by case=> // _; rewrite lexx.
Qed.

Lemma row_max_is_max r : r != [::] -> is_max (row_max r) r.
Proof.
move=> r0; rewrite /is_max /row_max mem_nth ?max_element_size //=.
apply/(all_nthP 0); case: r r0 => [|x s] // _.
have [] // := @max_element_loop (x :: s) 0%N 1%N (size s).
by case=> // _; rewrite lexx.
Qed.

Lemma deref_min_element r :
  r != [::] -> Std.deref r (Std.min_element r) = Some (row_min r).
Proof. by move=> r0; rewrite /Std.deref (onth_size 0) ?min_element_size. Qed.

Lemma deref_max_element r :
  r != [::] -> Std.deref r (Std.max_element r) = Some (row_max r).
Proof. by move=> r0; rewrite /Std.deref (onth_size 0) ?max_element_size. Qed.

End Extrema.

(** *** Traversals and loops *)

Section Control.

Lemma transform_map (A : eqType) B (f : A -> option B) (g : A -> B)
    (r : seq A) :
  {in r, forall x, f x = Some (g x)} -> Std.transform f r = Some (map g r).
Proof.
elim: r => [|x r IHr] //= fg.
rewrite fg ?mem_head //= IHr // => y yr.
by apply: fg; rewrite inE yr orbT.
Qed.

Lemma transform_none (A : eqType) B (f : A -> option B) (r : seq A) x :
  x \in r -> f x = None -> Std.transform f r = None.
Proof.
elim: r => [|y r IHr] //=; rewrite inE => /orP[/eqP<- -> // | xr fx].
by case: (f y) => //= z; rewrite IHr.
Qed.

Lemma for_loop_invariant (S : Type) (inv : nat -> S) n
    (body : nat -> S -> option S) :
  (forall i, (i < n)%N -> body i (inv i) = Some (inv i.+1)) ->
  Std.for_loop n body (inv 0%N) = Some (inv n).
Proof.
rewrite /Std.for_loop; elim: n => [|n IHn] // step.
rewrite -addn1 iotaD add0n /= foldl_cat IHn /= ?addn1 ?step //.
by move=> i lt_in; apply: step; exact: ltnW.
Qed.

End Control.

(** *** Shapes *)

Section Shapes.
Variable T : realDomainType.
Implicit Types (M : matrix T) (row : seq T).

Lemma rect_size rows columns M : rect rows columns M -> size M = rows.
Proof. by case/andP=> /eqP. Qed.

Lemma rect_row rows columns M row :
  rect rows columns M -> row \in M -> size row = columns.
Proof. by case/andP=> _ /allP sz /sz/eqP. Qed.

Lemma rect_row_neq0 rows columns M row :
  (0 < columns)%N -> rect rows columns M -> row \in M -> row != [::].
Proof. by move=> c0 rM /(rect_row rM) sz; rewrite -size_eq0 sz -lt0n. Qed.

Lemma rect_neq0 rows columns M :
  (0 < rows)%N -> rect rows columns M -> M != [::].
Proof. by move=> r0 /rect_size sz; rewrite -size_eq0 sz -lt0n. Qed.

Lemma rect_nth rows columns M i :
  rect rows columns M -> (i < rows)%N -> size (nth [::] M i) = columns.
Proof.
by move=> rM lt_i; apply: (rect_row rM); rewrite mem_nth ?(rect_size rM).
Qed.

End Shapes.

(** *** Minimax *)

Section Minimax.
Variable T : realDomainType.
Implicit Types (M : matrix T) (row : seq T) (v : T).

Lemma rowwise_map (P : seq T -> T -> Prop) (g : seq T -> T) M :
  {in M, forall row, P row (g row)} -> rowwise P M (map g M).
Proof.
move=> Pg; split=> [|i lt_i]; first by rewrite size_map.
by rewrite (nth_map [::]) //; apply: Pg; rewrite mem_nth.
Qed.

Lemma minimaxE rows columns M :
  (0 < columns)%N -> rect rows columns M ->
  DecisionCriteria.minimax M = Std.ranges_max (map (@row_min T) M).
Proof.
move=> c0 rM; rewrite /DecisionCriteria.minimax.
rewrite (@transform_map _ _ _ (@row_min T)) // => row rowM.
by rewrite deref_min_element // (rect_row_neq0 c0 rM).
Qed.

Lemma minimax_seq_max rows columns M :
  (0 < rows)%N -> (0 < columns)%N -> rect rows columns M ->
  DecisionCriteria.minimax M = Some (seq_max (map (@row_min T) M)) /\
  is_max (seq_max (map (@row_min T) M)) (map (@row_min T) M).
Proof.
move=> r0 c0 rM; rewrite (minimaxE c0 rM); apply: ranges_max_seq_max.
by rewrite -size_eq0 size_map size_eq0 (rect_neq0 r0 rM).
Qed.

Lemma row_minima_spec rows columns M :
  (0 < rows)%N -> (0 < columns)%N -> rect rows columns M ->
  max_of_row_minima M (seq_max (map (@row_min T) M)).
Proof.
move=> r0 c0 rM; have [_ vmax] := minimax_seq_max r0 c0 rM.
exists (map (@row_min T) M) => //; apply: rowwise_map => row rowM.
by apply: row_min_is_min; exact: rect_row_neq0 rM rowM.
Qed.

End Minimax.

(** *** The specification determines the value *)

Section Determined.
Variable T : realDomainType.
Implicit Types (M R : matrix T) (v w alpha : T) (row : seq T).

Lemma rowwise_uniq (P : seq T -> T -> Prop) M (vs ws : seq T) :
  (forall row v w, P row v -> P row w -> v = w) ->
  rowwise P M vs -> rowwise P M ws -> vs = ws.
Proof.
move=> P_uniq [sz_vs Pvs] [sz_ws Pws].
apply: (@eq_from_nth _ 0); first by rewrite sz_vs.
by move=> i; rewrite sz_vs => lt_i; apply: P_uniq (Pvs _ lt_i) (Pws _ lt_i).
Qed.

Lemma is_blend_uniq alpha row v w :
  is_blend alpha row v -> is_blend alpha row w -> v = w.
Proof.
move=> [mn [mx [mn_min mx_max ->]]] [mn' [mx' [mn'_min mx'_max ->]]].
by rewrite (is_min_uniq mn_min mn'_min) (is_max_uniq mx_max mx'_max).
Qed.

Lemma max_of_row_minima_uniq M v w :
  max_of_row_minima M v -> max_of_row_minima M w -> v = w.
Proof.
move=> [vs row_vs v_max] [ws row_ws w_max]; apply: is_max_uniq v_max _.
rewrite (rowwise_uniq _ row_vs row_ws) // => row x y.
exact: is_min_uniq.
Qed.

Lemma max_of_row_maxima_uniq M v w :
  max_of_row_maxima M v -> max_of_row_maxima M w -> v = w.
Proof.
move=> [vs row_vs v_max] [ws row_ws w_max]; apply: is_max_uniq v_max _.
rewrite (rowwise_uniq _ row_vs row_ws) // => row x y.
exact: is_max_uniq.
Qed.

Lemma min_of_row_maxima_uniq R v w :
  min_of_row_maxima R v -> min_of_row_maxima R w -> v = w.
Proof.
move=> [vs row_vs v_min] [ws row_ws w_min]; apply: is_min_uniq v_min _.
rewrite (rowwise_uniq _ row_vs row_ws) // => row x y.
exact: is_max_uniq.
Qed.

Lemma max_of_row_blends_uniq alpha M v w :
  max_of_row_blends alpha M v -> max_of_row_blends alpha M w -> v = w.
Proof.
move=> [vs row_vs v_max] [ws row_ws w_max]; apply: is_max_uniq v_max _.
rewrite (rowwise_uniq _ row_vs row_ws) // => row x y.
exact: is_blend_uniq.
Qed.

Lemma is_regret_uniq rows columns M R R' :
  is_regret rows columns M R -> is_regret rows columns M R' -> R = R'.
Proof.
move=> [rR cellR] [rR' cellR'].
apply: (@eq_from_nth _ [::]); first by rewrite (rect_size rR) (rect_size rR').
move=> i; rewrite (rect_size rR) => lt_i.
apply: (@eq_from_nth _ 0); first by rewrite (rect_nth rR) ?(rect_nth rR').
move=> c; rewrite (rect_nth rR) // => lt_c.
have [cmax cmax_max eq_c] := cellR _ _ lt_i lt_c.
have [cmax' cmax'_max eq_c'] := cellR' _ _ lt_i lt_c.
by move: eq_c eq_c'; rewrite /cell (is_max_uniq cmax_max cmax'_max) => -> ->.
Qed.

End Determined.

(** *** Outside the precondition *)

Section Undefined.
Variable T : realDomainType.
Implicit Types (M : matrix T).

Lemma minimax_no_rows : DecisionCriteria.minimax ([::] : matrix T) = None.
Proof. by []. Qed.

Lemma minimax_empty_row M : [::] \in M -> DecisionCriteria.minimax M = None.
Proof.
by move=> in_M; rewrite /DecisionCriteria.minimax (transform_none in_M).
Qed.

Lemma savage_no_columns rows M :
  (0 < rows)%N -> rect rows 0 M -> DecisionCriteria.savage rows 0 M = None.
Proof.
move=> r0 rM; rewrite /DecisionCriteria.savage /DecisionCriteria.savage_body.
rewrite /DecisionCriteria.regret_transform /Std.for_loop /=.
have /(transform_none (f := fun row => Std.deref row (Std.max_element row)))
  -> // : [::] \in M.
have := rect_neq0 r0 rM; case: M rM => [|row M] // rM _.
by rewrite inE eq_sym -size_eq0 (rect_row rM) ?mem_head.
Qed.

Lemma savage_no_rows columns :
  (0 < columns)%N ->
  DecisionCriteria.savage 0 columns ([::] : matrix T) = None.
Proof.
rewrite /DecisionCriteria.savage /DecisionCriteria.savage_body.
by case: columns => [|columns] // _; rewrite /DecisionCriteria.regret_transform
  /Std.for_loop /= (_ : foldl _ None _ = None) //; elim: (iota _ _).
Qed.

End Undefined.

(** C1.  For a matrix with at least one row and one column, both variants
    of [minimax] return the maximum, over the rows, of the minimum of each
    row. *)
Theorem minimax_max_of_row_minima (T : realDomainType) rows columns
    (M : matrix T) :
  (0 < rows)%N -> (0 < columns)%N -> rect rows columns M ->
  exists v, [/\ DecisionCriteria.minimax M = Some v,
                DecisionCriterion.minimax M = Some v
              & max_of_row_minima M v].
Proof.
move=> r0 c0 rM; have [eq_v _] := minimax_seq_max r0 c0 rM.
exists (seq_max (map (@row_min T) M)); split=> //.
exact: row_minima_spec r0 c0 rM.
Qed.

Lemma minimax_max_of_row_minima_witness :
  exists v, [/\ DecisionCriteria.minimax reference = Some v,
                DecisionCriterion.minimax reference = Some v
              & max_of_row_minima reference v].
Proof. exact: (@minimax_max_of_row_minima _ 4 5 reference). Defined.

(** *** Savage: the working copy, loop by loop *)

Section Savage.
Variable T : realDomainType.
Variables (rows columns : nat) (M : matrix T).
Hypothesis rows_gt0 : (0 < rows)%N.
Hypothesis rectM : rect rows columns M.

Local Abbreviation W := (regret_upto rows columns M).

Lemma regret_upto_start : W 0%N 0%N = M.
Proof.
apply: (@eq_from_nth _ [::]); first by rewrite size_mkseq (rect_size rectM).
move=> i; rewrite size_mkseq => lt_i; rewrite nth_mkseq //.
apply: (@eq_from_nth _ 0); first by rewrite size_mkseq (rect_nth rectM).
by move=> c; rewrite size_mkseq => lt_c; rewrite nth_mkseq // ltn0 andbF.
Qed.

Lemma regret_upto_next k : W k rows = W k.+1 0%N.
Proof.
apply: eq_in_mkseq => i lt_i; apply: eq_in_mkseq => c lt_c.
by rewrite lt_i andbT ltn0 andbF orbF ltnS [(c <= k)%N]leq_eqVlt orbC.
Qed.

Lemma column_regret_upto k :
  (k < columns)%N ->
  Std.transform (fun row => onth row k) (W k 0%N) = Some (column M k).
Proof.
move=> lt_k; rewrite (@transform_map _ _ _ (fun row => nth 0 row k)).
  by move=> row /mapP[i _ ->]; apply: onth_size; rewrite size_mkseq.
congr Some; apply: (@eq_from_nth _ 0).
  by rewrite !size_map size_iota (rect_size rectM).
move=> i; rewrite size_map size_mkseq => lt_i.
rewrite (nth_map [::]) ?size_mkseq // nth_mkseq // nth_mkseq //.
by rewrite ltnn ltn0 andbF /= (nth_map [::]) // (rect_size rectM).
Qed.

Lemma column_neq0 k : column M k != [::].
Proof. by rewrite -size_eq0 size_map (rect_size rectM) -lt0n. Qed.

Lemma assign_regret_upto k j :
  (k < columns)%N -> (j < rows)%N ->
  (do r <- onth (W k j) j;
   do x <- onth r k;
   assign (W k j) j k (col_max M k - x)) = Some (W k j.+1).
Proof.
move=> lt_k lt_j.
rewrite /assign (onth_size [::]) ?size_mkseq //= nth_mkseq //.
rewrite (onth_size 0) ?size_mkseq //= nth_mkseq // lt_k.
rewrite !ltnn eqxx /=; congr Some.
apply: (@eq_from_nth _ [::]).
  by rewrite size_set_nth !size_mkseq; apply/maxn_idPr.
move=> i; rewrite size_set_nth size_mkseq (maxn_idPr lt_j) => lt_i.
rewrite nth_set_nth /= [in RHS]nth_mkseq //; case: eqP => [-> | /eqP ne_ij].
  apply: (@eq_from_nth _ 0).
    by rewrite size_set_nth !size_mkseq; apply/maxn_idPr.
  move=> c; rewrite size_set_nth size_mkseq (maxn_idPr lt_k) => lt_c.
  rewrite nth_set_nth /= [in RHS]nth_mkseq //; case: eqP => [-> | /eqP ne_ck].
    by rewrite ltnSn orbT.
  by rewrite nth_mkseq // andbF.
rewrite nth_mkseq //; apply: eq_in_mkseq => c lt_c.
by rewrite ltnS [(i <= j)%N]leq_eqVlt (negPf ne_ij).
Qed.

Lemma regret_column_upto k :
  (k < columns)%N ->
  DecisionCriteria.regret_column rows k (W k 0%N) = Some (W k.+1 0%N).
Proof.
move=> lt_k; rewrite /DecisionCriteria.regret_column column_regret_upto //=.
have [-> _] /= := ranges_max_seq_max (column_neq0 k).
rewrite -regret_upto_next.
apply: (@for_loop_invariant _ (W k)) => j lt_j.
exact: assign_regret_upto.
Qed.

Lemma regret_transformE :
  DecisionCriteria.regret_transform rows columns M
  = Some (regret rows columns M).
Proof.
rewrite -[in LHS]regret_upto_start /DecisionCriteria.regret_transform.
by apply: (@for_loop_invariant _ (W^~ 0%N)) => k; exact: regret_column_upto.
Qed.

Lemma cell_regret i c :
  (i < rows)%N -> (c < columns)%N ->
  cell (regret rows columns M) i c = col_max M c - cell M i c.
Proof. by move=> lt_i lt_c; rewrite /cell !nth_mkseq // lt_c. Qed.

Lemma rect_regret : rect rows columns (regret rows columns M).
Proof.
rewrite /rect size_mkseq eqxx /=; apply/allP => row /mapP[i _ ->].
by rewrite size_mkseq.
Qed.

Lemma regret_is_regret : is_regret rows columns M (regret rows columns M).
Proof.
split=> [|i c lt_i lt_c]; first exact: rect_regret.
exists (col_max M c); last exact: cell_regret.
by have [] := ranges_max_seq_max (column_neq0 c).
Qed.

(** The regret matrix, row by row of [M]. *)
Lemma regret_map :
  regret rows columns M
  = [seq mkseq (fun c => col_max M c - nth 0 row c) columns | row <- M].
Proof.
apply: (@eq_from_nth _ [::]).
  by rewrite size_map size_mkseq (rect_size rectM).
move=> i; rewrite size_mkseq => lt_i.
rewrite nth_mkseq // (nth_map [::]) ?(rect_size rectM) //.
by apply: eq_in_mkseq => c ->.
Qed.

Hypothesis columns_gt0 : (0 < columns)%N.

Lemma savage_bodyE :
  let maxima := map (@row_max T) (regret rows columns M) in
  DecisionCriteria.savage_body rows columns M
  = Some (seq_min maxima, regret rows columns M)
  /\ is_min (seq_min maxima) maxima.
Proof.
rewrite /DecisionCriteria.savage_body regret_transformE /=.
rewrite (@transform_map _ _ _ (@row_max T)).
  move=> row rowR; rewrite deref_max_element //.
  exact: rect_row_neq0 rect_regret rowR.
have nonempty : map (@row_max T) (regret rows columns M) != [::].
  by rewrite -size_eq0 size_map size_mkseq -lt0n.
by rewrite /=; have [-> ?] := ranges_min_seq_min nonempty.
Qed.

Lemma savageE :
  let maxima := map (@row_max T) (regret rows columns M) in
  DecisionCriteria.savage rows columns M = Some (seq_min maxima)
  /\ is_min (seq_min maxima) maxima.
Proof. by rewrite /DecisionCriteria.savage; have [-> ?] := savage_bodyE. Qed.

End Savage.

Lemma regret_ge0 (T : realDomainType) rows columns (M : matrix T) i c :
  rect rows columns M -> (i < rows)%N -> (c < columns)%N ->
  0 <= cell (regret rows columns M) i c.
Proof.
move=> rM lt_i lt_c; rewrite cell_regret // subr_ge0.
have r0 : (0 < rows)%N by exact: leq_ltn_trans lt_i.
have [_ /andP[_ /allP]] := ranges_max_seq_max (column_neq0 r0 rM c).
apply; apply/mapP; exists (nth [::] M i) => //.
by rewrite mem_nth ?(rect_size rM).
Qed.



(** C8.  The regret transform is not an involution: on the 1x1 matrix
    holding 1 it gives the matrix holding 0, and on that one the matrix
    holding 0 again. *)
Theorem regret_transform_not_involutive (T : realDomainType) :
  exists M R R' : matrix T,
    [/\ rect 1 1 M,
        DecisionCriteria.regret_transform 1 1 M = Some R,
        DecisionCriteria.regret_transform 1 1 R = Some R',
        R' <> M
      & @DecisionCriterion.regret_transform T
        = @DecisionCriteria.regret_transform T].
Proof.
exists [:: [:: 1]], [:: [:: 0]], [:: [:: 0]].
have eqR : DecisionCriteria.regret_transform 1 1 [:: [:: 1 : T]]
           = Some [:: [:: 0]].
  by rewrite regret_transformE // /regret /regret_upto /mkseq /= /cell /= subrr.
have eqR' : DecisionCriteria.regret_transform 1 1 [:: [:: 0 : T]]
            = Some [:: [:: 0]].
  by rewrite regret_transformE // /regret /regret_upto /mkseq /= /cell /= subrr.
split=> //; case=> /eqP; apply/negP.
by rewrite eq_sym oner_eq0.
Qed.

(** *** The store across a call by value *)

Section CallByValue.
Variable T : realDomainType.
Implicit Types (st : store T) (M R : matrix T).

Lemma set_nth_rcons st M R :
  set_nth [::] (rcons st M) (size st) R = rcons st R.
Proof. by elim: st => //= M' st ->. Qed.

Lemma onth_rcons_size st M : onth (rcons st M) (size st) = Some M.
Proof. by rewrite -cats1 onth_cat ltnn subnn. Qed.

Lemma onth_rcons_lt st M R arg :
  onth st arg = Some M -> onth (rcons st R) arg = Some M.
Proof.
move=> eqM; rewrite -cats1 onth_cat; case: ltnP => // le_arg.
by rewrite onth_default in eqM.
Qed.

Lemma call_by_valueE body st arg M v R :
  onth st arg = Some M -> body M = Some (v, R) ->
  call_by_value body arg st = Some (v, rcons st R, st).
Proof.
move=> eqM eqb; rewrite /call_by_value eqM /= onth_rcons_size /= eqb /=.
by rewrite set_nth_rcons -cats1 take_size_cat.
Qed.

End CallByValue.

(** C5.  A call of [savage] leaves the store as it found it, the caller's
    matrix included: while the body runs, the regrets are written to the
    parameter object, which only the call can name, and the argument still
    holds [M]. *)
Theorem savage_leaves_caller_matrix (T : realDomainType) rows columns
    (st : store T) (arg : nat) (M : matrix T) :
  (0 < rows)%N -> (0 < columns)%N ->
  onth st arg = Some M -> rect rows columns M ->
  exists v during,
    [/\ call_by_value (DecisionCriteria.savage_body rows columns) arg st
        = Some (v, during, st),
        call_by_value (DecisionCriterion.savage_body rows columns) arg st
        = Some (v, during, st),
        onth during arg = Some M,
        onth during (size st) = Some (regret rows columns M)
      & DecisionCriteria.savage rows columns M = Some v].
Proof.
move=> r0 c0 eqM rM; have [eq_body _] := savage_bodyE r0 rM c0.
have [eq_v _] := savageE r0 rM c0.
have eq_call := call_by_valueE eqM eq_body.
do 2!eexists; split; [exact: eq_call | exact: eq_call | | | exact: eq_v].
  exact: onth_rcons_lt.
exact: onth_rcons_size.
Qed.

Lemma savage_leaves_caller_matrix_witness :
  exists v during,
    [/\ call_by_value (DecisionCriteria.savage_body 4 5) 0 [:: reference]
        = Some (v, during, [:: reference]),
        call_by_value (DecisionCriterion.savage_body 4 5) 0 [:: reference]
        = Some (v, during, [:: reference]),
        onth during 0 = Some reference,
        onth during 1 = Some (regret 4 5 reference)
      & DecisionCriteria.savage 4 5 reference = Some v].
Proof.
exact: (@savage_leaves_caller_matrix _ 4 5 [:: reference] 0 reference).
Defined.

(** *** Hurwicz *)

Section Hurwicz.
Variable T : realDomainType.
Variables (rows columns : nat) (M : matrix T).
Hypothesis rows_gt0 : (0 < rows)%N.
Hypothesis columns_gt0 : (0 < columns)%N.
Hypothesis rectM : rect rows columns M.
Implicit Types (alpha lowest v : T) (row : seq T).

Lemma blend_is_blend alpha row :
  row != [::] -> is_blend alpha row (blend alpha row).
Proof.
move=> row0; exists (row_min row), (row_max row).
by split; [exact: row_min_is_min | exact: row_max_is_max |].
Qed.

Lemma blends_neq0 alpha : map (blend alpha) M != [::].
Proof. by rewrite -size_eq0 size_map size_eq0 (rect_neq0 rows_gt0 rectM). Qed.

(** The variant over ranges. *)
Lemma range_hurwiczE alpha :
  let blends := map (blend alpha) M in
  DecisionCriterion.hurwicz M alpha = Some (seq_max blends)
  /\ is_max (seq_max blends) blends.
Proof.
rewrite /DecisionCriterion.hurwicz (@transform_map _ _ _ (blend alpha)).
  move=> row /(rect_row_neq0 columns_gt0 rectM) row0.
  by rewrite deref_min_element // deref_max_element.
exact: ranges_max_seq_max (blends_neq0 alpha).
Qed.

(** The variant over arrays: a running maximum that starts at [lowest]. *)
Lemma array_hurwicz_foldl lowest alpha (rs : matrix T) :
  all (fun row => row != [::]) rs ->
  DecisionCriteria.hurwicz lowest rs alpha
  = Some (foldl (fun result tmp => if result < tmp then tmp else result)
                lowest (map (blend alpha) rs)).
Proof.
rewrite /DecisionCriteria.hurwicz.
elim: rs lowest => [|row rs IHrs] lowest //= /andP[row0 rs0].
by rewrite deref_min_element // deref_max_element //= IHrs.
Qed.

Lemma array_hurwicz_is_max lowest alpha :
  exists2 v, DecisionCriteria.hurwicz lowest M alpha = Some v
           & is_max v (lowest :: map (blend alpha) M).
Proof.
eexists; last exact: foldl_max_is_max.
apply: array_hurwicz_foldl; apply/allP => row.
exact: rect_row_neq0 rectM.
Qed.

(** Whatever [lowest] is, the array variant returns the larger of [lowest]
    and the value of the range variant. *)
Lemma array_hurwicz_max lowest alpha :
  DecisionCriteria.hurwicz lowest M alpha
  = Some (Order.max lowest (seq_max (map (blend alpha) M))).
Proof.
have [v -> vmax] := array_hurwicz_is_max lowest alpha.
have [_ /andP[s_in /allP s_max]] := range_hurwiczE alpha.
congr Some; apply: is_max_uniq vmax _; rewrite /is_max inE /=.
set m := seq_max _ in s_in s_max *.
case: (ltP lowest m) => [/ltW low_le | le_low].
  by rewrite s_in orbT low_le /=; apply/allP.
rewrite eqxx lexx /=; apply/allP => x /s_max x_le.
exact: le_trans x_le le_low.
Qed.

Lemma range_minimaxE :
  DecisionCriterion.minimax M = DecisionCriteria.minimax M.
Proof. by []. Qed.

Lemma range_savageE :
  DecisionCriterion.savage rows columns M
  = DecisionCriteria.savage rows columns M.
Proof. by []. Qed.

End Hurwicz.

(** C10.  On a matrix with at least one row and one column none of the
    six functions meets an empty range, a past-the-end iterator or a
    subscript outside an array: each returns a value. *)
Theorem criteria_total (T : realDomainType) rows columns (M : matrix T)
    (lowest alpha : T) :
  (0 < rows)%N -> (0 < columns)%N -> rect rows columns M ->
  [/\ isSome (DecisionCriteria.minimax M),
      isSome (DecisionCriterion.minimax M),
      isSome (DecisionCriteria.savage rows columns M),
      isSome (DecisionCriterion.savage rows columns M)
    & isSome (DecisionCriteria.hurwicz lowest M alpha)
      /\ isSome (DecisionCriterion.hurwicz M alpha)].
Proof.
move=> r0 c0 rM.
have [eq_m _] := minimax_seq_max r0 c0 rM.
have [eq_s _] := savageE r0 rM c0.
have [eq_h _] := range_hurwiczE r0 c0 rM alpha.
have [v eq_a _] := array_hurwicz_is_max c0 rM lowest alpha.
by rewrite range_minimaxE range_savageE eq_m eq_s eq_h eq_a.
Qed.

Lemma criteria_total_witness :
  [/\ isSome (DecisionCriteria.minimax reference),
      isSome (DecisionCriterion.minimax reference),
      isSome (DecisionCriteria.savage 4 5 reference),
      isSome (DecisionCriterion.savage 4 5 reference)
    & isSome (DecisionCriteria.hurwicz 0 reference 2)
      /\ isSome (DecisionCriterion.hurwicz reference 2)].
Proof. exact: (@criteria_total _ 4 5 reference 0 2). Defined.

(** *** Permutations *)

Section PermExtrema.
Variable T : realDomainType.
Implicit Types (s r : seq T).

Lemma perm_neq0 (A : eqType) (s r : seq A) :
  perm_eq s r -> s != [::] -> r != [::].
Proof. by move=> /perm_size sz; rewrite -!size_eq0 sz. Qed.

Lemma perm_seq_max s r : s != [::] -> perm_eq s r -> seq_max s = seq_max r.
Proof.
move=> s0 sr; have [_ smax] := ranges_max_seq_max s0.
have [_ rmax] := ranges_max_seq_max (perm_neq0 sr s0).
by apply: is_max_uniq rmax; rewrite -(perm_is_max _ sr).
Qed.

Lemma perm_seq_min s r : s != [::] -> perm_eq s r -> seq_min s = seq_min r.
Proof.
move=> s0 sr; have [_ smin] := ranges_min_seq_min s0.
have [_ rmin] := ranges_min_seq_min (perm_neq0 sr s0).
by apply: is_min_uniq rmin; rewrite -(perm_is_min _ sr).
Qed.

Lemma perm_row_max s r : s != [::] -> perm_eq s r -> row_max s = row_max r.
Proof.
move=> s0 sr; apply: is_max_uniq (row_max_is_max (perm_neq0 sr s0)).
by rewrite -(perm_is_max _ sr); exact: row_max_is_max.
Qed.

Lemma perm_row_min s r : s != [::] -> perm_eq s r -> row_min s = row_min r.
Proof.
move=> s0 sr; apply: is_min_uniq (row_min_is_min (perm_neq0 sr s0)).
by rewrite -(perm_is_min _ sr); exact: row_min_is_min.
Qed.

Lemma perm_blend alpha s r :
  s != [::] -> perm_eq s r -> blend alpha s = blend alpha r.
Proof.
by move=> s0 sr; rewrite /blend (perm_row_min s0 sr) (perm_row_max s0 sr).
Qed.

End PermExtrema.

Section RowPermutation.
Variable T : realDomainType.
Variables (rows columns : nat) (M M' : matrix T).
Hypothesis rows_gt0 : (0 < rows)%N.
Hypothesis columns_gt0 : (0 < columns)%N.
Hypothesis rectM : rect rows columns M.
Hypothesis permM : perm_eq M' M.

Lemma rect_perm : rect rows columns M'.
Proof.
by move: rectM; rewrite /rect (perm_size permM) (perm_all _ permM).
Qed.

Lemma perm_rows_neq0 (g : seq T -> T) : map g M' != [::].
Proof. by rewrite -size_eq0 size_map size_eq0 (rect_neq0 rows_gt0 rect_perm). Qed.

Lemma minimax_perm_rows :
  DecisionCriteria.minimax M' = DecisionCriteria.minimax M.
Proof.
have [-> _] := minimax_seq_max rows_gt0 columns_gt0 rect_perm.
have [-> _] := minimax_seq_max rows_gt0 columns_gt0 rectM.
by congr Some; apply: perm_seq_max (perm_map _ permM); exact: perm_rows_neq0.
Qed.

Lemma range_hurwicz_perm_rows alpha :
  DecisionCriterion.hurwicz M' alpha = DecisionCriterion.hurwicz M alpha.
Proof.
have [-> _] := range_hurwiczE rows_gt0 columns_gt0 rect_perm alpha.
have [-> _] := range_hurwiczE rows_gt0 columns_gt0 rectM alpha.
by congr Some; apply: perm_seq_max (perm_map _ permM); exact: perm_rows_neq0.
Qed.

Lemma array_hurwicz_perm_rows lowest alpha :
  DecisionCriteria.hurwicz lowest M' alpha
  = DecisionCriteria.hurwicz lowest M alpha.
Proof.
have [v' -> v'max] := array_hurwicz_is_max columns_gt0 rect_perm lowest alpha.
have [v -> vmax] := array_hurwicz_is_max columns_gt0 rectM lowest alpha.
have perm_blends : perm_eq (lowest :: map (blend alpha) M')
                             (lowest :: map (blend alpha) M).
  by rewrite perm_cons; exact: perm_map.
by congr Some; apply: is_max_uniq vmax; rewrite -(perm_is_max _ perm_blends).
Qed.

Lemma col_max_perm_rows c : col_max M' c = col_max M c.
Proof.
apply: perm_seq_max (perm_map _ permM).
exact: column_neq0 rows_gt0 rect_perm c.
Qed.

Lemma regret_perm_rows :
  perm_eq (regret rows columns M') (regret rows columns M).
Proof.
rewrite (regret_map rect_perm) (regret_map rectM).
rewrite (@eq_map _ _ _ (fun row : seq T =>
           mkseq (fun c => col_max M c - nth 0 row c) columns)).
  by move=> row; apply: eq_in_mkseq => c _; rewrite col_max_perm_rows.
exact: perm_map.
Qed.

Lemma savage_perm_rows :
  DecisionCriteria.savage rows columns M'
  = DecisionCriteria.savage rows columns M.
Proof.
have [-> _] := savageE rows_gt0 rect_perm columns_gt0.
have [-> _] := savageE rows_gt0 rectM columns_gt0.
congr Some; apply: perm_seq_min (perm_map _ regret_perm_rows).
by rewrite -size_eq0 size_map size_mkseq -lt0n.
Qed.

End RowPermutation.

Section ColumnPermutation.
Variable T : realDomainType.
Variables (rows columns : nat) (M : matrix T) (sigma : seq nat).
Hypothesis rows_gt0 : (0 < rows)%N.
Hypothesis columns_gt0 : (0 < columns)%N.
Hypothesis rectM : rect rows columns M.
Hypothesis perm_sigma : perm_eq sigma (iota 0 columns).

Local Abbreviation M' := (permute_columns sigma M).
Local Abbreviation P := (fun row : seq T => [seq nth 0 row c | c <- sigma]).

Lemma size_sigma : size sigma = columns.
Proof. by rewrite (perm_size perm_sigma) size_iota. Qed.

Lemma mkseq_sigma (A : Type) (G : nat -> A) :
  mkseq (fun c => G (nth 0%N sigma c)) columns = map G sigma.
Proof. by rewrite -[in RHS](mkseq_nth 0%N sigma) size_sigma -map_comp. Qed.

Lemma perm_permuted_row row : size row = columns -> perm_eq (P row) row.
Proof.
by move=> sz; rewrite -[X in perm_eq _ X](mkseq_nth 0 row) sz; exact: perm_map.
Qed.

Lemma permuted_row_neq0 row : P row != [::].
Proof. by rewrite -size_eq0 size_map size_sigma -lt0n. Qed.

Lemma nth_permuted row c :
  (c < columns)%N -> nth 0 (P row) c = nth 0 row (nth 0%N sigma c).
Proof. by move=> lt_c; rewrite (nth_map 0%N) ?size_sigma. Qed.

Lemma rect_permute_columns : rect rows columns M'.
Proof.
rewrite /rect size_map (rect_size rectM) eqxx /=.
by apply/allP => row' /mapP[row _ ->]; rewrite size_map size_sigma.
Qed.

Lemma map_permuted (g : seq T -> T) :
  (forall s r : seq T, s != [::] -> perm_eq s r -> g s = g r) ->
  map g M' = map g M.
Proof.
move=> g_perm; rewrite /permute_columns -map_comp.
apply/eq_in_map => row rowM /=.
apply: g_perm (permuted_row_neq0 row) (perm_permuted_row _).
exact: rect_row rectM rowM.
Qed.

Lemma minimax_perm_columns :
  DecisionCriteria.minimax M' = DecisionCriteria.minimax M.
Proof.
have [-> _] := minimax_seq_max rows_gt0 columns_gt0 rect_permute_columns.
have [-> _] := minimax_seq_max rows_gt0 columns_gt0 rectM.
by rewrite (map_permuted (@perm_row_min T)).
Qed.

Lemma range_hurwicz_perm_columns alpha :
  DecisionCriterion.hurwicz M' alpha = DecisionCriterion.hurwicz M alpha.
Proof.
have [-> _] := range_hurwiczE rows_gt0 columns_gt0 rect_permute_columns alpha.
have [-> _] := range_hurwiczE rows_gt0 columns_gt0 rectM alpha.
by rewrite (map_permuted (@perm_blend T alpha)).
Qed.

Lemma array_hurwicz_perm_columns lowest alpha :
  DecisionCriteria.hurwicz lowest M' alpha
  = DecisionCriteria.hurwicz lowest M alpha.
Proof.
have rows_neq0 : all (fun row : seq T => row != [::]) M.
  by apply/allP => row; exact: rect_row_neq0 rectM.
have rows'_neq0 : all (fun row : seq T => row != [::]) M'.
  by apply/allP => row; exact: rect_row_neq0 rect_permute_columns.
by rewrite !array_hurwicz_foldl // (map_permuted (@perm_blend T alpha)).
Qed.

Lemma col_max_permuted c :
  (c < columns)%N -> col_max M' c = col_max M (nth 0%N sigma c).
Proof.
move=> lt_c; congr seq_max; rewrite /column /permute_columns -map_comp.
by apply/eq_in_map => row _ /=; exact: nth_permuted.
Qed.

Lemma savage_perm_columns :
  DecisionCriteria.savage rows columns M'
  = DecisionCriteria.savage rows columns M.
Proof.
have [-> _] := savageE rows_gt0 rect_permute_columns columns_gt0.
have [-> _] := savageE rows_gt0 rectM columns_gt0.
congr (Some (seq_min _)).
rewrite (regret_map rect_permute_columns) (regret_map rectM).
rewrite /permute_columns -!map_comp; apply/eq_in_map => row rowM /=.
apply: perm_row_max; first by rewrite -size_eq0 size_mkseq -lt0n.
pose G d := col_max M d - nth 0 row d.
rewrite (@eq_in_mkseq _ _ (fun c => G (nth 0%N sigma c))).
  by move=> c lt_c; rewrite col_max_permuted // nth_permuted.
by rewrite mkseq_sigma; exact: perm_map.
Qed.

End ColumnPermutation.



(** ** The run of [main] *)

Example minimax_reference : DecisionCriteria.minimax reference = Some 2.
Proof. by []. Qed.

Example column_maxima_reference :
  mkseq (col_max reference) 5 = [:: 15; 19; 14; 20; 17].
Proof. by vm_compute. Qed.

Example regret_reference :
  DecisionCriteria.regret_transform 4 5 reference
  = Some [:: [:: 0; 9; 14; 26; 0];
             [:: 12; 5; 6; 11; 15];
             [:: 14; 14; 0; 0; 20];
             [:: 8; 0; 4; 18; 17]].
Proof. by vm_compute. Qed.

Example savage_reference : DecisionCriteria.savage 4 5 reference = Some 15.
Proof. by vm_compute. Qed.

Example hurwicz_reference :
  DecisionCriterion.hurwicz reference_rat (4%:Q / 5%:Q)
  = Some (22%:Q / 5%:Q).
Proof. by vm_compute. Qed.

Example array_hurwicz_reference :
  DecisionCriteria.hurwicz (- 1000%:Q) reference_rat (4%:Q / 5%:Q)
  = Some (22%:Q / 5%:Q).
Proof. by vm_compute. Qed.

Example hurwicz_reference_outside :
  DecisionCriterion.hurwicz reference 2 = Some (-10).
Proof. by vm_compute. Qed.

(** A starting value above every row would show through;
    [std::numeric_limits<T>::lowest()] is below every finite value of [T]. *)
Example array_hurwicz_seed :
  DecisionCriteria.hurwicz 0 [:: [:: -1 : int]] 1 = Some 0.
Proof. by vm_compute. Qed.

(** A matrix with a single cell: every criterion returns the cell. *)
Example single_cell (T : realDomainType) (x alpha : T) :
  [/\ DecisionCriteria.minimax [:: [:: x]] = Some x,
      DecisionCriteria.savage 1 1 [:: [:: x]] = Some 0
    & DecisionCriterion.hurwicz [:: [:: x]] alpha = Some x].
Proof.
split=> //.
  have [-> _] := @savageE _ 1 1 [:: [:: x]] isT isT isT.
  by rewrite /regret /regret_upto /mkseq /= /cell /= /row_max /= subrr.
rewrite /DecisionCriterion.hurwicz /=; congr Some.
by rewrite mulrBl mul1r addrC subrK.
Qed.

(** * Further properties of the code *)

(** ** Matrices that are not rectangular, and where the results are defined

    [minimax] and [hurwicz] of [decision_criterion.cpp] take any range of
    ranges: nothing makes the rows equally long. *)

Section Ragged.
Variable T : realDomainType.
Implicit Types (M : matrix T) (row : seq T) (alpha lowest v : T).

Lemma notin_nil_neq0 M row : [::] \notin M -> row \in M -> row != [::].
Proof. by move=> notin rowM; apply: contraNneq notin => <-. Qed.

Lemma minimax_rows M :
  [::] \notin M ->
  DecisionCriterion.minimax M = Std.ranges_max (map (@row_min T) M).
Proof.
move=> notin; rewrite /DecisionCriterion.minimax.
rewrite (@transform_map _ _ _ (@row_min T)) // => row rowM.
by rewrite deref_min_element // (notin_nil_neq0 notin).
Qed.

Lemma range_minimax_empty_row M :
  [::] \in M -> DecisionCriterion.minimax M = None.
Proof.
by move=> in_M; rewrite /DecisionCriterion.minimax (transform_none in_M).
Qed.

Lemma range_hurwicz_rows M alpha :
  [::] \notin M ->
  DecisionCriterion.hurwicz M alpha = Std.ranges_max (map (blend alpha) M).
Proof.
move=> notin; rewrite /DecisionCriterion.hurwicz.
rewrite (@transform_map _ _ _ (blend alpha)) // => row rowM.
have row0 := notin_nil_neq0 notin rowM.
by rewrite deref_min_element // deref_max_element.
Qed.

Lemma range_hurwicz_empty_row M alpha :
  [::] \in M -> DecisionCriterion.hurwicz M alpha = None.
Proof.
by move=> in_M; rewrite /DecisionCriterion.hurwicz (transform_none in_M).
Qed.

Lemma array_hurwicz_empty_row lowest M alpha :
  [::] \in M -> DecisionCriteria.hurwicz lowest M alpha = None.
Proof.
rewrite /DecisionCriteria.hurwicz.
have foldl_none (rs : matrix T) :
    foldl (fun st row =>
             do max_value <- st;
             do min_outcome <- Std.deref row (Std.min_element row);
             do max_outcome <- Std.deref row (Std.max_element row);
             Some (Std.max max_value
                     (alpha * min_outcome + (1 - alpha) * max_outcome)))
          None rs = None by elim: rs.
elim: M lowest => [|row M IHM] lowest //=.
rewrite inE => /orP[/eqP<- | in_M] //=.
by case: (do _ <- _; _) => [v |] //; exact: IHM.
Qed.

Lemma nonempty_map (A B : eqType) (f : A -> B) (s : seq A) :
  s != [::] -> map f s != [::].
Proof. by case: s. Qed.

End Ragged.

(** X1.  [minimax] does not need a rectangular matrix: whenever there is a
    row and no row is empty it returns the maximum of the row minima. *)
Theorem minimax_ragged (T : realDomainType) (M : matrix T) :
  M != [::] -> [::] \notin M ->
  exists2 v, DecisionCriterion.minimax M = Some v & max_of_row_minima M v.
Proof.
move=> M0 notin; rewrite minimax_rows //.
have [-> vmax] := ranges_max_seq_max (nonempty_map (@row_min T) M0).
eexists; first by [].
exists (map (@row_min T) M) => //; apply: rowwise_map => row rowM.
by apply: row_min_is_min; exact: notin_nil_neq0 rowM.
Qed.

Lemma minimax_ragged_witness :
  exists2 v, DecisionCriterion.minimax [:: [:: 3; 1; 2]; [:: 5 : int]] = Some v
           & max_of_row_minima [:: [:: 3; 1; 2]; [:: 5 : int]] v.
Proof. exact: (@minimax_ragged _ [:: [:: 3; 1; 2]; [:: 5 : int]]). Defined.

(** X2.  [hurwicz] over ranges does not need a rectangular matrix either:
    whenever there is a row and no row is empty it returns the maximum of
    [alpha * min(row) + (1 - alpha) * max(row)]. *)
Theorem hurwicz_ragged (T : realDomainType) (M : matrix T) (alpha : T) :
  M != [::] -> [::] \notin M ->
  exists2 v, DecisionCriterion.hurwicz M alpha = Some v
           & max_of_row_blends alpha M v.
Proof.
move=> M0 notin; rewrite range_hurwicz_rows //.
have [-> vmax] := ranges_max_seq_max (nonempty_map (blend alpha) M0).
eexists; first by [].
exists (map (blend alpha) M) => //; apply: rowwise_map => row rowM.
by apply: blend_is_blend; exact: notin_nil_neq0 rowM.
Qed.

Lemma hurwicz_ragged_witness :
  exists2 v, DecisionCriterion.hurwicz [:: [:: 3; 1; 2]; [:: 5 : int]] 2
             = Some v
           & max_of_row_blends 2 [:: [:: 3; 1; 2]; [:: 5 : int]] v.
Proof. exact: (@hurwicz_ragged _ [:: [:: 3; 1; 2]; [:: 5 : int]] 2). Defined.

(** X3.  [minimax] and [hurwicz] over ranges are defined exactly on the
    matrices that have a row and no empty row: an empty matrix or a single
    empty row makes the whole result undefined. *)
Theorem range_criteria_defined (T : realDomainType) (M : matrix T)
    (alpha : T) :
  isSome (DecisionCriterion.minimax M) = (M != [::]) && ([::] \notin M)
  /\ isSome (DecisionCriterion.hurwicz M alpha)
     = (M != [::]) && ([::] \notin M).
Proof.
case: (boolP ([::] \in M)) => [in_M | notin].
  by rewrite range_minimax_empty_row // range_hurwicz_empty_row // andbF.
rewrite minimax_rows // range_hurwicz_rows // andbT.
by case: M {notin}.
Qed.

(** X4.  [hurwicz] over arrays is defined exactly when no row is empty,
    the matrix without rows included. *)
Theorem array_hurwicz_defined (T : realDomainType) (M : matrix T)
    (lowest alpha : T) :
  isSome (DecisionCriteria.hurwicz lowest M alpha) = ([::] \notin M).
Proof.
case: (boolP ([::] \in M)) => [in_M | notin].
  by rewrite array_hurwicz_empty_row.
rewrite array_hurwicz_foldl //; apply/allP => row.
exact: notin_nil_neq0.
Qed.



(** ** Savage: where it is defined *)

Section Regrets.
Variable T : realDomainType.
Variables (rows columns : nat) (M : matrix T).
Hypothesis rows_gt0 : (0 < rows)%N.
Hypothesis rectM : rect rows columns M.
Implicit Types (i c : nat) (row : seq T).

Lemma col_max_is_max c : is_max (col_max M c) (column M c).
Proof. by have [] := ranges_max_seq_max (column_neq0 rows_gt0 rectM c). Qed.

Lemma cell_in_column i c : (i < rows)%N -> cell M i c \in column M c.
Proof.
move=> lt_i; apply/mapP; exists (nth [::] M i) => //.
by rewrite mem_nth ?(rect_size rectM).
Qed.

End Regrets.

(** X6.  [savage] is defined exactly when the array has at least one row
    and at least one column. *)
Theorem savage_defined (T : realDomainType) rows columns (M : matrix T) :
  rect rows columns M ->
  isSome (DecisionCriteria.savage rows columns M)
  = (0 < rows)%N && (0 < columns)%N
  /\ isSome (DecisionCriterion.savage rows columns M)
     = (0 < rows)%N && (0 < columns)%N.
Proof.
move=> rM; rewrite range_savageE.
suff -> : isSome (DecisionCriteria.savage rows columns M)
          = (0 < rows)%N && (0 < columns)%N by [].
case: (posnP rows) => [rows0 | r0].
  have M0 : M = [::].
    by apply/eqP; rewrite -size_eq0 (rect_size rM) rows0.
  rewrite rows0 M0; case: (posnP columns) => [-> // | c0].
  by rewrite savage_no_rows.
case: (posnP columns) => [columns0 | c0].
  by rewrite columns0 in rM *; rewrite savage_no_columns.
by have [-> _] := savageE r0 rM c0.
Qed.

Lemma savage_defined_witness :
  isSome (DecisionCriteria.savage 4 5 reference) = (0 < 4)%N && (0 < 5)%N
  /\ isSome (DecisionCriterion.savage 4 5 reference)
     = (0 < 4)%N && (0 < 5)%N.
Proof. exact: (@savage_defined _ 4 5 reference). Defined.

(** ** Monotone changes of the payoffs *)

Section Monotone.
Variable T : realDomainType.
Variable f : T -> T.
Hypothesis f_mono : {homo f : x y / x <= y}.
Implicit Types (s row : seq T) (M : matrix T) (v : T).

Lemma is_max_map s v : is_max v s -> is_max (f v) (map f s).
Proof.
move=> /andP[v_in /allP v_max]; rewrite /is_max map_f //=.
by apply/allP => y /mapP[x /v_max x_le ->]; exact: f_mono.
Qed.

Lemma is_min_map s v : is_min v s -> is_min (f v) (map f s).
Proof.
move=> /andP[v_in /allP v_min]; rewrite /is_min map_f //=.
by apply/allP => y /mapP[x /v_min x_le ->]; exact: f_mono.
Qed.

Lemma row_min_map row : row != [::] -> row_min (map f row) = f (row_min row).
Proof.
move=> row0; apply: is_min_uniq (is_min_map (row_min_is_min row0)).
by apply: row_min_is_min; exact: nonempty_map.
Qed.

Lemma row_max_map row : row != [::] -> row_max (map f row) = f (row_max row).
Proof.
move=> row0; apply: is_max_uniq (is_max_map (row_max_is_max row0)).
by apply: row_max_is_max; exact: nonempty_map.
Qed.

Lemma seq_max_map s : s != [::] -> seq_max (map f s) = f (seq_max s).
Proof.
move=> s0; have [_ smax] := ranges_max_seq_max s0.
have [_ fmax] := ranges_max_seq_max (nonempty_map f s0).
exact: is_max_uniq fmax (is_max_map smax).
Qed.

Lemma seq_min_map s : s != [::] -> seq_min (map f s) = f (seq_min s).
Proof.
move=> s0; have [_ smin] := ranges_min_seq_min s0.
have [_ fmin] := ranges_min_seq_min (nonempty_map f s0).
exact: is_min_uniq fmin (is_min_map smin).
Qed.

Lemma ranges_max_map s :
  Std.ranges_max (map f s) = omap f (Std.ranges_max s).
Proof.
case: (eqVneq s [::]) => [-> // | s0].
have [-> _] := ranges_max_seq_max s0.
by have [-> _] := ranges_max_seq_max (nonempty_map f s0); rewrite seq_max_map.
Qed.

Lemma ranges_min_map s :
  Std.ranges_min (map f s) = omap f (Std.ranges_min s).
Proof.
case: (eqVneq s [::]) => [-> // | s0].
have [-> _] := ranges_min_seq_min s0.
by have [-> _] := ranges_min_seq_min (nonempty_map f s0); rewrite seq_min_map.
Qed.

Lemma map_matrix_nil_in M : ([::] \in map_matrix f M) = ([::] \in M).
Proof.
apply/mapP/idP => [[row rowM /esym/eqP] | in_M]; last by exists [::].
by rewrite -size_eq0 size_map size_eq0 => /eqP <-.
Qed.

Lemma minimax_map M :
  DecisionCriterion.minimax (map_matrix f M)
  = omap f (DecisionCriterion.minimax M).
Proof.
case: (boolP ([::] \in M)) => [in_M | notin].
  by rewrite !range_minimax_empty_row // map_matrix_nil_in.
rewrite !minimax_rows ?map_matrix_nil_in // -ranges_max_map.
congr Std.ranges_max; rewrite /map_matrix -!map_comp.
apply/eq_in_map => row rowM /=.
by rewrite row_min_map // (notin_nil_neq0 notin).
Qed.

End Monotone.

(** X9.  [minimax] commutes with every non-decreasing change of the
    payoffs (adding a constant, scaling by a non-negative factor, capping):
    on any matrix, [minimax] of the changed matrix is the changed
    [minimax], and is undefined when [minimax] of the matrix is. *)
Theorem minimax_monotone_map (T : realDomainType) (f : T -> T)
    (M : matrix T) :
  {homo f : x y / x <= y} ->
  DecisionCriteria.minimax (map_matrix f M)
  = omap f (DecisionCriteria.minimax M)
  /\ DecisionCriterion.minimax (map_matrix f M)
     = omap f (DecisionCriterion.minimax M).
Proof. by move=> f_mono; split; exact: minimax_map. Qed.

Lemma minimax_monotone_map_witness :
  DecisionCriteria.minimax (map_matrix (fun x : int => x + 3) reference)
  = omap (fun x : int => x + 3) (DecisionCriteria.minimax reference)
  /\ DecisionCriterion.minimax (map_matrix (fun x : int => x + 3) reference)
     = omap (fun x : int => x + 3) (DecisionCriterion.minimax reference).
Proof.
apply: (@minimax_monotone_map _ (fun x : int => x + 3) reference).
by move=> x y le_xy; rewrite lerD2r.
Defined.

(** ** Bounds and monotonicity *)

(** X15.  The value of [minimax] never exceeds the maximum of a column:
    the best guaranteed payoff is at most the best payoff in any state of
    nature. *)
Theorem minimax_le_column_maxima (T : realDomainType) rows columns
    (M : matrix T) :
  (0 < rows)%N -> (0 < columns)%N -> rect rows columns M ->
  exists2 v, DecisionCriterion.minimax M = Some v
           & forall c cmax, (c < columns)%N ->
               is_max cmax (column M c) -> v <= cmax.
Proof.
move=> r0 c0 rM; have [eq_v /andP[/mapP[row rowM eq_row] _]] :=
  minimax_seq_max r0 c0 rM.
exists (seq_max (map (@row_min T) M)); first exact: eq_v.
move=> c cmax lt_c /andP[_ /allP cmax_le]; rewrite eq_row.
have row0 := rect_row_neq0 c0 rM rowM.
have /andP[_ /allP min_le] := row_min_is_min row0.
apply: (@le_trans _ _ (nth 0 row c)).
  by apply: min_le; rewrite mem_nth ?(rect_row rM rowM).
by apply: cmax_le; apply/mapP; exists row.
Qed.

Lemma minimax_le_column_maxima_witness :
  exists2 v, DecisionCriterion.minimax reference = Some v
           & forall c cmax, (c < 5)%N ->
               is_max cmax (column reference c) -> v <= cmax.
Proof. exact: (@minimax_le_column_maxima _ 4 5 reference). Defined.

Section EntrywiseOrder.
Variable T : realDomainType.
Variables (rows columns : nat) (M M' : matrix T).
Hypothesis rows_gt0 : (0 < rows)%N.
Hypothesis columns_gt0 : (0 < columns)%N.
Hypothesis rectM : rect rows columns M.
Hypothesis rectM' : rect rows columns M'.
Hypothesis le_MM' : entrywise_le rows columns M M'.
Implicit Types (i c : nat) (alpha : T).

Lemma entrywise_cell i c :
  (i < rows)%N -> (c < columns)%N -> cell M i c <= cell M' i c.
Proof.
move=> lt_i lt_c; have /allP/(_ i) := le_MM'.
by rewrite mem_iota => /(_ lt_i) /allP/(_ c); rewrite mem_iota; apply.
Qed.

Lemma nth_row_neq0 (N : matrix T) i :
  rect rows columns N -> (i < rows)%N -> nth [::] N i != [::].
Proof.
by move=> rN lt_i; rewrite -size_eq0 (rect_nth rN lt_i) -lt0n.
Qed.

Lemma row_min_entrywise i :
  (i < rows)%N -> row_min (nth [::] M i) <= row_min (nth [::] M' i).
Proof.
move=> lt_i.
have /andP[/(nthP 0)[c]] := row_min_is_min (nth_row_neq0 rectM' lt_i).
rewrite (rect_nth rectM' lt_i) => lt_c <- _.
have /andP[_ /allP min_le] := row_min_is_min (nth_row_neq0 rectM lt_i).
apply: le_trans (entrywise_cell lt_i lt_c); apply: min_le.
by rewrite mem_nth ?(rect_nth rectM lt_i).
Qed.

Lemma row_max_entrywise i :
  (i < rows)%N -> row_max (nth [::] M i) <= row_max (nth [::] M' i).
Proof.
move=> lt_i.
have /andP[/(nthP 0)[c]] := row_max_is_max (nth_row_neq0 rectM lt_i).
rewrite (rect_nth rectM lt_i) => lt_c <- _.
have /andP[_ /allP max_le] := row_max_is_max (nth_row_neq0 rectM' lt_i).
apply: le_trans (entrywise_cell lt_i lt_c) _; apply: max_le.
by rewrite mem_nth ?(rect_nth rectM' lt_i).
Qed.

Lemma blend_entrywise alpha i :
  0 <= alpha <= 1 -> (i < rows)%N ->
  blend alpha (nth [::] M i) <= blend alpha (nth [::] M' i).
Proof.
move=> /andP[a_ge0 a_le1] lt_i; rewrite /blend lerD //.
  by rewrite ler_wpM2l // row_min_entrywise.
by rewrite ler_wpM2l ?subr_ge0 // row_max_entrywise.
Qed.

Lemma seq_max_entrywise (g : seq T -> T) :
  (forall i, (i < rows)%N -> g (nth [::] M i) <= g (nth [::] M' i)) ->
  seq_max (map g M) <= seq_max (map g M').
Proof.
move=> le_g.
have M0 := rect_neq0 rows_gt0 rectM; have M'0 := rect_neq0 rows_gt0 rectM'.
have [_ /andP[/mapP[row /(nthP [::])[i]]]] :=
  ranges_max_seq_max (nonempty_map g M0).
rewrite (rect_size rectM) => lt_i <- -> _.
have [_ /andP[_ /allP g_le]] := ranges_max_seq_max (nonempty_map g M'0).
apply: le_trans (le_g _ lt_i) (g_le _ _); apply: map_f.
by rewrite mem_nth ?(rect_size rectM').
Qed.

End EntrywiseOrder.

(** X16.  Raising payoffs never lowers [minimax], nor [hurwicz] for a
    coefficient between 0 and 1: if [M] is below [M'] entry by entry, so
    are the values. *)
Theorem criteria_monotone (T : realDomainType) rows columns
    (M M' : matrix T) (alpha : T) :
  (0 < rows)%N -> (0 < columns)%N ->
  rect rows columns M -> rect rows columns M' ->
  entrywise_le rows columns M M' -> 0 <= alpha <= 1 ->
  (exists v v', [/\ DecisionCriterion.minimax M = Some v,
                    DecisionCriterion.minimax M' = Some v'
                  & v <= v'])
  /\ (exists w w', [/\ DecisionCriterion.hurwicz M alpha = Some w,
                       DecisionCriterion.hurwicz M' alpha = Some w'
                     & w <= w']).
Proof.
move=> r0 c0 rM rM' le_MM' a01; split.
  have [eq_v _] := minimax_seq_max r0 c0 rM.
  have [eq_v' _] := minimax_seq_max r0 c0 rM'.
  do 2!eexists; split; [exact: eq_v | exact: eq_v' |].
  apply: (seq_max_entrywise r0 rM rM') => i.
  exact: (@row_min_entrywise _ _ _ _ _ c0 rM rM' le_MM' i).
have [eq_w _] := range_hurwiczE r0 c0 rM alpha.
have [eq_w' _] := range_hurwiczE r0 c0 rM' alpha.
do 2!eexists; split; [exact: eq_w | exact: eq_w' |].
apply: (seq_max_entrywise r0 rM rM') => i.
exact: (@blend_entrywise _ _ _ _ _ c0 rM rM' le_MM' alpha i a01).
Qed.

Lemma criteria_monotone_witness :
  (exists v v',
     [/\ DecisionCriterion.minimax reference = Some v,
         DecisionCriterion.minimax (map_matrix (fun x => x + 1) reference)
         = Some v'
       & v <= v'])
  /\ (exists w w',
        [/\ DecisionCriterion.hurwicz reference 1 = Some w,
            DecisionCriterion.hurwicz
              (map_matrix (fun x => x + 1) reference) 1 = Some w'
          & w <= w']).
Proof.
exact: (@criteria_monotone _ 4 5 reference
          (map_matrix (fun x => x + 1) reference) 1).
Defined.

(** ** More strategies, or a single one *)

Section Rows.
Variable T : realDomainType.
Implicit Types (s t row : seq T) (M N : matrix T) (alpha lowest v w : T).

Lemma is_max_cat s t v w :
  is_max v s -> is_max w t -> is_max (Order.max v w) (s ++ t).
Proof.
move=> /andP[v_in /allP v_max] /andP[w_in /allP w_max].
rewrite /is_max mem_cat all_cat; apply/and3P; split.
- by case: (ltP v w) => _; rewrite ?v_in ?w_in ?orbT.
- by apply/allP => x /v_max x_le; rewrite le_max x_le.
- by apply/allP => x /w_max x_le; rewrite le_max x_le orbT.
Qed.

Lemma ranges_max_cat s t v w :
  Std.ranges_max s = Some v -> Std.ranges_max t = Some w ->
  Std.ranges_max (s ++ t) = Some (Order.max v w).
Proof.
case: (eqVneq s [::]) => [-> // | s0]; case: (eqVneq t [::]) => [-> // | t0].
have [-> smax] := ranges_max_seq_max s0 => -[<-].
have [-> tmax] := ranges_max_seq_max t0 => -[<-].
have st0 : s ++ t != [::] by case: (s) s0.
have [-> stmax] := ranges_max_seq_max st0.
by congr Some; apply: is_max_uniq stmax (is_max_cat smax tmax).
Qed.

Lemma range_minimax_some M v :
  DecisionCriterion.minimax M = Some v -> [::] \notin M.
Proof.
by case: (boolP ([::] \in M)) => // in_M; rewrite range_minimax_empty_row.
Qed.

Lemma notin_nil_cat M N : [::] \notin M -> [::] \notin N -> [::] \notin M ++ N.
Proof. by rewrite mem_cat negb_or => -> ->. Qed.

End Rows.

(** X19.  Putting the rows of two matrices together gives, for [minimax]
    and for [hurwicz], the larger of the two values: further strategies
    never lower the result. *)
Theorem criteria_of_concatenation (T : realDomainType) (M N : matrix T)
    (alpha v w v' w' : T) :
  DecisionCriterion.minimax M = Some v ->
  DecisionCriterion.minimax N = Some w ->
  DecisionCriterion.hurwicz M alpha = Some v' ->
  DecisionCriterion.hurwicz N alpha = Some w' ->
  DecisionCriterion.minimax (M ++ N) = Some (Order.max v w)
  /\ DecisionCriterion.hurwicz (M ++ N) alpha = Some (Order.max v' w').
Proof.
move=> eq_v eq_w eq_v' eq_w'.
have notinM := range_minimax_some eq_v.
have notinN := range_minimax_some eq_w.
have notin := notin_nil_cat notinM notinN.
move: eq_v eq_w eq_v' eq_w'.
rewrite !minimax_rows // !range_hurwicz_rows // !map_cat.
move=> eq_v eq_w eq_v' eq_w'.
by rewrite (ranges_max_cat eq_v eq_w) (ranges_max_cat eq_v' eq_w').
Qed.

Lemma criteria_of_concatenation_witness :
  DecisionCriterion.minimax (reference ++ [:: [:: 4; 9; 6]])
  = Some (Order.max 2 4)
  /\ DecisionCriterion.hurwicz (reference ++ [:: [:: 4; 9; 6]]) 2
     = Some (Order.max (-10) (-1)).
Proof.
exact: (@criteria_of_concatenation _ reference [:: [:: 4; 9; 6]]
          2 2 4 (-10) (-1)).
Defined.

(** X22.  What [minimax] returns is one of the entries of the matrix. *)
Theorem minimax_is_entry (T : realDomainType) (M : matrix T) (v : T) :
  DecisionCriterion.minimax M = Some v -> v \in flatten M.
Proof.
move=> eq_v; have notin := range_minimax_some eq_v.
move: eq_v; rewrite minimax_rows //.
case: (eqVneq M [::]) => [-> // | M0].
have [-> /andP[/mapP[row rowM ->] _]] :=
  ranges_max_seq_max (nonempty_map (@row_min T) M0).
move=> [<-]; apply/flattenP; exists row => //.
by have /andP[] := row_min_is_min (notin_nil_neq0 notin rowM).
Qed.

Lemma minimax_is_entry_witness : (2 : int) \in flatten reference.
Proof. exact: (@minimax_is_entry _ reference 2). Defined.

(** * The code over the arithmetic of its element type *)

(** ** Savage: the working copy, loop by loop, the differences taken in [T] *)

Section NativeSavage.
Variable T : realDomainType.
Variable sub : T -> T -> T.
Variables (rows columns : nat) (M : matrix T).
Hypothesis rows_gt0 : (0 < rows)%N.
Hypothesis rectM : rect rows columns M.

Local Abbreviation W := (Native.regret_upto sub rows columns M).
Local Abbreviation R := (Native.regret sub rows columns M).

Lemma native_regret_upto_start : W 0%N 0%N = M.
Proof.
apply: (@eq_from_nth _ [::]); first by rewrite size_mkseq (rect_size rectM).
move=> i; rewrite size_mkseq => lt_i; rewrite nth_mkseq //.
apply: (@eq_from_nth _ 0); first by rewrite size_mkseq (rect_nth rectM).
by move=> c; rewrite size_mkseq => lt_c; rewrite nth_mkseq // ltn0 andbF.
Qed.

Lemma native_regret_upto_next k : W k rows = W k.+1 0%N.
Proof.
apply: eq_in_mkseq => i lt_i; apply: eq_in_mkseq => c lt_c.
by rewrite lt_i andbT ltn0 andbF orbF ltnS [(c <= k)%N]leq_eqVlt orbC.
Qed.

Lemma native_column_regret_upto k :
  (k < columns)%N ->
  Std.transform (fun row => onth row k) (W k 0%N) = Some (column M k).
Proof.
move=> lt_k; rewrite (@transform_map _ _ _ (fun row => nth 0 row k)).
  by move=> row /mapP[i _ ->]; apply: onth_size; rewrite size_mkseq.
congr Some; apply: (@eq_from_nth _ 0).
  by rewrite !size_map size_iota (rect_size rectM).
move=> i; rewrite size_map size_mkseq => lt_i.
rewrite (nth_map [::]) ?size_mkseq // nth_mkseq // nth_mkseq //.
by rewrite ltnn ltn0 andbF /= (nth_map [::]) // (rect_size rectM).
Qed.

Lemma native_assign_regret_upto k j :
  (k < columns)%N -> (j < rows)%N ->
  (do r <- onth (W k j) j;
   do x <- onth r k;
   assign (W k j) j k (sub (col_max M k) x)) = Some (W k j.+1).
Proof.
move=> lt_k lt_j.
rewrite /assign (onth_size [::]) ?size_mkseq //= nth_mkseq //.
rewrite (onth_size 0) ?size_mkseq //= nth_mkseq // lt_k.
rewrite !ltnn eqxx /=; congr Some.
apply: (@eq_from_nth _ [::]).
  by rewrite size_set_nth !size_mkseq; apply/maxn_idPr.
move=> i; rewrite size_set_nth size_mkseq (maxn_idPr lt_j) => lt_i.
rewrite nth_set_nth /= [in RHS]nth_mkseq //; case: eqP => [-> | /eqP ne_ij].
  apply: (@eq_from_nth _ 0).
    by rewrite size_set_nth !size_mkseq; apply/maxn_idPr.
  move=> c; rewrite size_set_nth size_mkseq (maxn_idPr lt_k) => lt_c.
  rewrite nth_set_nth /= [in RHS]nth_mkseq //; case: eqP => [-> | /eqP ne_ck].
    by rewrite ltnSn orbT.
  by rewrite nth_mkseq // andbF.
rewrite nth_mkseq //; apply: eq_in_mkseq => c lt_c.
by rewrite ltnS [(i <= j)%N]leq_eqVlt (negPf ne_ij).
Qed.

Lemma native_regret_column_upto k :
  (k < columns)%N ->
  Native.DecisionCriteria.regret_column sub rows k (W k 0%N) = Some (W k.+1 0%N).
Proof.
move=> lt_k; rewrite /Native.DecisionCriteria.regret_column native_column_regret_upto //=.
have [-> _] /= := ranges_max_seq_max (column_neq0 rows_gt0 rectM k).
rewrite -native_regret_upto_next.
apply: (@for_loop_invariant _ (W k)) => j lt_j.
exact: native_assign_regret_upto.
Qed.

Lemma native_regret_transformE :
  Native.DecisionCriteria.regret_transform sub rows columns M
  = Some R.
Proof.
rewrite -[in LHS]native_regret_upto_start /Native.DecisionCriteria.regret_transform.
by apply: (@for_loop_invariant _ (W^~ 0%N)) => k; exact: native_regret_column_upto.
Qed.

Lemma native_cell_regret i c :
  (i < rows)%N -> (c < columns)%N ->
  cell R i c = sub (col_max M c) (cell M i c).
Proof. by move=> lt_i lt_c; rewrite /cell !nth_mkseq // lt_c. Qed.

Lemma native_rect_regret : rect rows columns R.
Proof.
rewrite /rect size_mkseq eqxx /=; apply/allP => row /mapP[i _ ->].
by rewrite size_mkseq.
Qed.

Lemma native_regret_is_regret : Native.is_regret sub rows columns M R.
Proof.
split=> [|i c lt_i lt_c]; first exact: native_rect_regret.
exists (col_max M c); last exact: native_cell_regret.
by have [] := ranges_max_seq_max (column_neq0 rows_gt0 rectM c).
Qed.

(** The regret matrix, row by row of [M]. *)
Lemma native_regret_map :
  R
  = [seq mkseq (fun c => sub (col_max M c) (nth 0 row c)) columns | row <- M].
Proof.
apply: (@eq_from_nth _ [::]).
  by rewrite size_map size_mkseq (rect_size rectM).
move=> i; rewrite size_mkseq => lt_i.
rewrite nth_mkseq // (nth_map [::]) ?(rect_size rectM) //.
by apply: eq_in_mkseq => c ->.
Qed.

Hypothesis columns_gt0 : (0 < columns)%N.

Lemma native_savage_bodyE :
  let maxima := map (@row_max T) R in
  Native.DecisionCriteria.savage_body sub rows columns M
  = Some (seq_min maxima, R)
  /\ is_min (seq_min maxima) maxima.
Proof.
rewrite /Native.DecisionCriteria.savage_body native_regret_transformE /=.
rewrite (@transform_map _ _ _ (@row_max T)).
  move=> row rowR; rewrite deref_max_element //.
  exact: rect_row_neq0 native_rect_regret rowR.
have nonempty : map (@row_max T) R != [::].
  by rewrite -size_eq0 size_map size_mkseq -lt0n.
by rewrite /=; have [-> ?] := ranges_min_seq_min nonempty.
Qed.

Lemma native_savageE :
  let maxima := map (@row_max T) R in
  Native.DecisionCriteria.savage sub rows columns M = Some (seq_min maxima)
  /\ is_min (seq_min maxima) maxima.
Proof. by rewrite /Native.DecisionCriteria.savage; have [-> ?] := native_savage_bodyE. Qed.

End NativeSavage.

(** The modules over the ring are this code at the exact operations. *)
Lemma native_exact (T : realDomainType) :
  [/\ Native.DecisionCriteria.savage (fun x y : T => x - y)
      = @DecisionCriteria.savage T,
      Native.DecisionCriterion.savage (fun x y : T => x - y)
      = @DecisionCriterion.savage T,
      Native.DecisionCriteria.hurwicz (fun x y : T => x - y) *%R +%R
      = @DecisionCriteria.hurwicz T
    & Native.DecisionCriterion.hurwicz (fun x y : T => x - y) *%R +%R
      = @DecisionCriterion.hurwicz T].
Proof. by []. Qed.

Lemma native_range_savageE (T : realDomainType) (sub : T -> T -> T) :
  Native.DecisionCriterion.savage sub = Native.DecisionCriteria.savage sub.
Proof. by []. Qed.

(** ** Hurwicz, the weighted sum computed in [T] *)

Section NativeHurwicz.
Variable T : realDomainType.
Variables sub mul add : T -> T -> T.
Implicit Types (M : matrix T) (row : seq T) (alpha lowest v : T).

Local Abbreviation blend := (Native.blend sub mul add).

Lemma native_blend_is_blend alpha row :
  row != [::] -> Native.is_blend sub mul add alpha row (blend alpha row).
Proof.
move=> row0; exists (row_min row), (row_max row).
by split; [exact: row_min_is_min | exact: row_max_is_max |].
Qed.

Lemma native_range_hurwicz_rows M alpha :
  [::] \notin M ->
  Native.DecisionCriterion.hurwicz sub mul add M alpha
  = Std.ranges_max (map (blend alpha) M).
Proof.
move=> notin; rewrite /Native.DecisionCriterion.hurwicz.
rewrite (@transform_map _ _ _ (blend alpha)) // => row rowM.
have row0 := notin_nil_neq0 notin rowM.
by rewrite deref_min_element // deref_max_element.
Qed.

Lemma native_array_hurwicz_foldl lowest alpha M :
  [::] \notin M ->
  Native.DecisionCriteria.hurwicz sub mul add lowest M alpha
  = Some (foldl (fun result tmp => if result < tmp then tmp else result)
                lowest (map (blend alpha) M)).
Proof.
rewrite /Native.DecisionCriteria.hurwicz.
elim: M lowest => [|row M IHM] lowest //=.
rewrite inE negb_or eq_sym => /andP[row0 notin].
by rewrite deref_min_element // deref_max_element //= IHM.
Qed.

Lemma native_array_hurwicz_max lowest alpha M :
  M != [::] -> [::] \notin M ->
  Native.DecisionCriteria.hurwicz sub mul add lowest M alpha
  = Some (Order.max lowest (seq_max (map (blend alpha) M))).
Proof.
move=> M0 notin; rewrite native_array_hurwicz_foldl //; congr Some.
have [_ /andP[s_in /allP s_max]] :=
  ranges_max_seq_max (nonempty_map (blend alpha) M0).
apply: is_max_uniq (foldl_max_is_max _ _) _; rewrite /is_max inE /=.
set m := seq_max _ in s_in s_max *.
case: (ltP lowest m) => [/ltW low_le | le_low].
  by rewrite s_in orbT low_le /=; apply/allP.
rewrite eqxx lexx /=; apply/allP => x /s_max x_le.
exact: le_trans x_le le_low.
Qed.

Lemma native_range_hurwicz_max alpha M :
  M != [::] -> [::] \notin M ->
  Native.DecisionCriterion.hurwicz sub mul add M alpha
  = Some (seq_max (map (blend alpha) M))
  /\ Native.max_of_row_blends sub mul add alpha M
       (seq_max (map (blend alpha) M)).
Proof.
move=> M0 notin; rewrite native_range_hurwicz_rows //.
have [-> vmax] := ranges_max_seq_max (nonempty_map (blend alpha) M0).
split=> //; exists (map (blend alpha) M) => //.
apply: rowwise_map => row rowM; apply: native_blend_is_blend.
exact: notin_nil_neq0 rowM.
Qed.

End NativeHurwicz.

Lemma rect_notin_nil (T : realDomainType) rows columns (M : matrix T) :
  (0 < columns)%N -> rect rows columns M -> [::] \notin M.
Proof.
by move=> c0 rM; apply/negP => /(rect_row rM) /esym; apply/eqP; rewrite -lt0n.
Qed.

(** C3.  Both variants of [hurwicz] reduce the row values
    [alpha * min(row) + (1 - alpha) * max(row)], for any coefficient; the
    range variant returns their maximum [v], the array variant the larger
    of [lowest] and [v]: its running maximum starts at
    [std::numeric_limits<T>::lowest()], so a maximum below that value is
    not returned. *)
Theorem hurwicz_array_starts_at_lowest (T : realDomainType)
    (sub mul add : T -> T -> T) rows columns (M : matrix T)
    (lowest alpha : T) :
  (0 < rows)%N -> (0 < columns)%N -> rect rows columns M ->
  exists v,
    [/\ Native.DecisionCriterion.hurwicz sub mul add M alpha = Some v,
        Native.max_of_row_blends sub mul add alpha M v
      & Native.DecisionCriteria.hurwicz sub mul add lowest M alpha
        = Some (Order.max lowest v)].
Proof.
move=> r0 c0 rM; have M0 := rect_neq0 r0 rM.
have notin := rect_notin_nil c0 rM.
have [eq_v v_max] := native_range_hurwicz_max sub mul add alpha M0 notin.
eexists; split; [exact: eq_v | exact: v_max |].
exact: native_array_hurwicz_max.
Qed.

Lemma hurwicz_array_starts_at_lowest_witness :
  exists v,
    [/\ Native.DecisionCriterion.hurwicz (fun x y => x - y) *%R +%R
          [:: [:: -1001 : int]] 1 = Some v,
        Native.max_of_row_blends (fun x y => x - y) *%R +%R 1
          [:: [:: -1001 : int]] v
      & Native.DecisionCriteria.hurwicz (fun x y => x - y) *%R +%R
          (-1000) [:: [:: -1001 : int]] 1
        = Some (Order.max (-1000) v)].
Proof.
exact: (@hurwicz_array_starts_at_lowest _ _ _ _ 1 1 [:: [:: -1001 : int]]).
Defined.

(** C4.  The two files agree on [minimax] and on [savage]; on [hurwicz]
    the array variant returns the larger of [lowest] and what the range
    variant returns, so the two agree exactly when some row value is not
    below [std::numeric_limits<T>::lowest()]. *)
Theorem variants_agree_but_for_lowest (T : realDomainType)
    (sub mul add : T -> T -> T) rows columns (M : matrix T)
    (lowest alpha : T) :
  (0 < rows)%N -> (0 < columns)%N -> rect rows columns M ->
  exists v,
    [/\ DecisionCriteria.minimax M = DecisionCriterion.minimax M,
        Native.DecisionCriteria.savage sub rows columns M
        = Native.DecisionCriterion.savage sub rows columns M,
        Native.DecisionCriterion.hurwicz sub mul add M alpha = Some v,
        Native.DecisionCriteria.hurwicz sub mul add lowest M alpha
        = Some (Order.max lowest v)
      & (Native.DecisionCriteria.hurwicz sub mul add lowest M alpha
         == Native.DecisionCriterion.hurwicz sub mul add M alpha)
        = (lowest <= v)].
Proof.
move=> r0 c0 rM; have M0 := rect_neq0 r0 rM.
have notin := rect_notin_nil c0 rM.
have [eq_v _] := native_range_hurwicz_max sub mul add alpha M0 notin.
have eq_a := native_array_hurwicz_max sub mul add lowest alpha M0 notin.
eexists; split; [by [] | by [] | exact: eq_v | exact: eq_a |].
rewrite eq_a eq_v; apply/eqP/idP => [[/max_idPr] // | le_low].
by congr Some; apply/max_idPr.
Qed.

Lemma variants_agree_but_for_lowest_witness :
  exists v,
    [/\ DecisionCriteria.minimax [:: [:: -1001 : int]]
        = DecisionCriterion.minimax [:: [:: -1001 : int]],
        Native.DecisionCriteria.savage (fun x y => x - y) 1 1
          [:: [:: -1001 : int]]
        = Native.DecisionCriterion.savage (fun x y => x - y) 1 1
            [:: [:: -1001 : int]],
        Native.DecisionCriterion.hurwicz (fun x y => x - y) *%R +%R
          [:: [:: -1001 : int]] 1 = Some v,
        Native.DecisionCriteria.hurwicz (fun x y => x - y) *%R +%R
          (-1000) [:: [:: -1001 : int]] 1
        = Some (Order.max (-1000) v)
      & (Native.DecisionCriteria.hurwicz (fun x y => x - y) *%R +%R
           (-1000) [:: [:: -1001 : int]] 1
         == Native.DecisionCriterion.hurwicz (fun x y => x - y) *%R +%R
              [:: [:: -1001 : int]] 1)
        = (-1000 <= v)].
Proof.
exact: (@variants_agree_but_for_lowest _ _ _ _ 1 1 [:: [:: -1001 : int]]).
Defined.

(** The array variant on a matrix whose only value is below its starting
    value, next to the range variant: with [double], the only values
    below [lowest()] are minus infinity and a weighted sum that overflows
    to it. *)
Example hurwicz_below_lowest :
  [/\ Native.DecisionCriteria.hurwicz (fun x y => x - y) *%R +%R
        (-1000) [:: [:: -1001 : int]] 1 = Some (-1000),
      Native.DecisionCriterion.hurwicz (fun x y => x - y) *%R +%R
        [:: [:: -1001 : int]] 1 = Some (-1001)
    & DecisionCriteria.hurwicz (-1000) [:: [:: -1001 : int]] 1
      = Some (-1000)].
Proof. by split; vm_compute. Qed.

(** ** Savage over a subtraction that may wrap *)

Section NativeRegrets.
Variable T : realDomainType.
Variable sub : T -> T -> T.
Variables (rows columns : nat) (M : matrix T).
Hypothesis rows_gt0 : (0 < rows)%N.
Hypothesis rectM : rect rows columns M.
Implicit Types (i c : nat) (row : seq T).

Local Abbreviation R := (Native.regret sub rows columns M).

Lemma cell_in_flatten i c :
  (i < rows)%N -> (c < columns)%N -> cell M i c \in flatten M.
Proof.
move=> lt_i lt_c; apply/flattenP; exists (nth [::] M i).
  by rewrite mem_nth ?(rect_size rectM).
by rewrite mem_nth ?(rect_nth rectM).
Qed.

Lemma col_max_in_flatten c : (c < columns)%N -> col_max M c \in flatten M.
Proof.
move=> lt_c; have /andP[/mapP[row /(nthP [::])[i lt_i <-] ->] _] :=
  col_max_is_max rows_gt0 rectM c.
by apply: cell_in_flatten; rewrite // -(rect_size rectM).
Qed.

Lemma cell_le_col_max i c : (i < rows)%N -> cell M i c <= col_max M c.
Proof.
move=> lt_i; have /andP[_ /allP] := col_max_is_max rows_gt0 rectM c.
by apply; exact: (cell_in_column rectM).
Qed.

Lemma native_column_regret c :
  (c < columns)%N ->
  column R c = [seq sub (col_max M c) x | x <- column M c].
Proof.
move=> lt_c; rewrite /column (native_regret_map sub rectM) -!map_comp.
by apply: eq_map => row /=; rewrite nth_mkseq.
Qed.

Lemma native_nth_regret_in i : (i < rows)%N -> nth [::] R i \in R.
Proof. by move=> lt_i; rewrite mem_nth ?size_mkseq. Qed.

Hypothesis no_wrap : Native.sub_no_wrap sub M.

Lemma native_regret_ge0 i c :
  (i < rows)%N -> (c < columns)%N -> 0 <= cell R i c.
Proof.
move=> lt_i lt_c; rewrite native_cell_regret //.
by apply: no_wrap; rewrite ?col_max_in_flatten ?cell_in_flatten
                           ?cell_le_col_max.
Qed.

Lemma native_row_max_regret_ge0 row :
  (0 < columns)%N -> row \in R -> 0 <= row_max row.
Proof.
move=> c0 rowR.
have row0 : row != [::].
  exact: rect_row_neq0 (native_rect_regret _ _ _ _) rowR.
have /andP[_ /allP row_le] := row_max_is_max row0.
have /(nthP [::])[i] := rowR; rewrite size_mkseq => lt_i eq_row.
apply: le_trans (row_le (nth 0 row 0%N) _).
  by rewrite -eq_row; exact: native_regret_ge0.
by rewrite mem_nth // lt0n size_eq0.
Qed.

Hypothesis zero : Native.sub_zero sub M.

Lemma native_column_regret_min0 c :
  (c < columns)%N -> is_min 0 (column R c).
Proof.
move=> lt_c; rewrite /is_min native_column_regret //; apply/andP; split.
  apply/mapP; exists (col_max M c).
    by have /andP[] := col_max_is_max rows_gt0 rectM c.
  by apply/esym/eqP; rewrite zero ?col_max_in_flatten.
apply/allP => y /mapP[x /mapP[row /(nthP [::])[i lt_i <-] ->] ->].
rewrite (rect_size rectM) in lt_i.
apply: no_wrap; first exact: col_max_in_flatten.
  exact: (cell_in_flatten lt_i lt_c).
exact: (cell_le_col_max c lt_i).
Qed.

Lemma native_dominant_col_max i c :
  (i < rows)%N -> (c < columns)%N ->
  is_max (cell M i c) (column M c) = (cell R i c == 0).
Proof.
move=> lt_i lt_c; rewrite native_cell_regret //.
rewrite zero ?col_max_in_flatten ?cell_in_flatten ?cell_le_col_max //.
rewrite eq_sym; apply/idP/eqP => [cell_max | ->].
  exact: is_max_uniq cell_max (col_max_is_max rows_gt0 rectM c).
exact: (col_max_is_max rows_gt0 rectM c).
Qed.

Lemma native_row_max_regret0 i :
  (0 < columns)%N -> (i < rows)%N ->
  (row_max (nth [::] R i) == 0) = dominant columns M i.
Proof.
move=> c0 lt_i; set row := nth [::] R i.
have row0 : row != [::].
  exact: rect_row_neq0 (native_rect_regret _ _ _ _) (native_nth_regret_in lt_i).
have sz_row : size row = columns by rewrite /row nth_mkseq // size_mkseq.
have /andP[max_in /allP max_le] := row_max_is_max row0.
apply/eqP/allP => [max0 c | dom].
  rewrite mem_iota /= add0n => lt_c; rewrite native_dominant_col_max //.
  rewrite eq_le native_regret_ge0 // andbT -max0.
  by apply: max_le; rewrite mem_nth ?sz_row.
apply: le_anti.
rewrite native_row_max_regret_ge0 ?native_nth_regret_in // andbT.
have /(nthP 0)[c] := max_in; rewrite sz_row => lt_c <-.
have := dom c; rewrite mem_iota /= add0n native_dominant_col_max //.
by move=> /(_ lt_c) /eqP; rewrite /cell -/row => ->.
Qed.

Hypothesis columns_gt0 : (0 < columns)%N.

Lemma native_savage_eq0 :
  (Native.DecisionCriteria.savage sub rows columns M == Some 0)
  = has (dominant columns M) (iota 0 rows).
Proof.
have [-> /andP[min_in /allP min_le]] :=
  native_savageE sub rows_gt0 rectM columns_gt0.
set maxima := map _ _ in min_in min_le *.
apply/eqP/hasP => [[min0] | [i]].
  move: min_in; rewrite min0 => /mapP[row /(nthP [::])[i]].
  rewrite size_mkseq => lt_i <- /esym/eqP.
  by rewrite native_row_max_regret0 // => dom; exists i; rewrite // mem_iota.
rewrite mem_iota /= add0n => lt_i.
rewrite -native_row_max_regret0 // => /eqP max0.
congr Some; apply: le_anti; apply/andP; split.
  by rewrite -max0; apply: min_le; apply: map_f; exact: native_nth_regret_in.
by have /mapP[row rowR ->] := min_in; exact: native_row_max_regret_ge0.
Qed.

End NativeRegrets.

(** C9.  When the subtraction of [T] does not wrap around on the entries
    of the matrix, what [savage] returns is not negative. *)
Theorem savage_ge0_without_wrap (T : realDomainType) (sub : T -> T -> T)
    rows columns (M : matrix T) :
  (0 < rows)%N -> (0 < columns)%N -> rect rows columns M ->
  Native.sub_no_wrap sub M ->
  exists v, [/\ Native.DecisionCriteria.savage sub rows columns M = Some v,
                Native.DecisionCriterion.savage sub rows columns M = Some v
              & 0 <= v].
Proof.
move=> r0 c0 rM no_wrap.
have [eq_v /andP[/mapP[row rowR eq_m] _]] := native_savageE sub r0 rM c0.
eexists; split; [exact: eq_v | exact: eq_v | rewrite eq_m].
exact: (native_row_max_regret_ge0 r0 rM no_wrap c0 rowR).
Qed.

Lemma savage_ge0_without_wrap_witness :
  exists v,
    [/\ Native.DecisionCriteria.savage (fun x y => x - y) 4 5 reference
        = Some v,
        Native.DecisionCriterion.savage (fun x y => x - y) 4 5 reference
        = Some v
      & 0 <= v].
Proof.
apply: (@savage_ge0_without_wrap _ _ 4 5 reference) => //.
by move=> x y _ _; rewrite subr_ge0.
Defined.

(** With [signed char] elements the difference 127 - (-1) is stored as
    -128, and that is what [savage] returns. *)
Lemma savage_ge0_counterexample :
  [/\ rect 2 1 [:: [:: 127]; [:: -1 : int]],
      Native.DecisionCriteria.savage signed_char_sub 2 1
        [:: [:: 127]; [:: -1]] = Some (-128),
      Native.DecisionCriterion.savage signed_char_sub 2 1
        [:: [:: 127]; [:: -1]] = Some (-128)
    & (-128 : int) < 0].
Proof. by split; vm_compute. Qed.

Section NativeBoundaries.
Variable T : realDomainType.
Variables sub mul add : T -> T -> T.
Variables (rows columns : nat) (M : matrix T).
Hypothesis rows_gt0 : (0 < rows)%N.
Hypothesis columns_gt0 : (0 < columns)%N.
Hypothesis rectM : rect rows columns M.
Hypothesis exact01 : Native.boundary_exact sub mul add M.
Implicit Types (row : seq T) (lowest : T).

Lemma row_min_in_flatten row : row \in M -> row_min row \in flatten M.
Proof.
move=> rowM; apply/flattenP; exists row => //.
by have /andP[] := row_min_is_min (rect_row_neq0 columns_gt0 rectM rowM).
Qed.

Lemma row_max_in_flatten row : row \in M -> row_max row \in flatten M.
Proof.
move=> rowM; apply/flattenP; exists row => //.
by have /andP[] := row_max_is_max (rect_row_neq0 columns_gt0 rectM rowM).
Qed.

Lemma native_blends1 :
  map (Native.blend sub mul add 1) M = map (@row_min T) M.
Proof.
apply/eq_in_map => row rowM; rewrite /Native.blend.
by have [] := exact01 (row_min_in_flatten rowM) (row_max_in_flatten rowM).
Qed.

Lemma native_blends0 :
  map (Native.blend sub mul add 0) M = map (@row_max T) M.
Proof.
apply/eq_in_map => row rowM; rewrite /Native.blend.
by have [] := exact01 (row_min_in_flatten rowM) (row_max_in_flatten rowM).
Qed.

Lemma lowest_le_seq_max lowest (g : seq T -> T) :
  all (all (fun x => lowest <= x)) M ->
  (forall row, row \in M -> g row \in flatten M) ->
  lowest <= seq_max (map g M).
Proof.
move=> low g_in.
have M0 : map g M != [::].
  by apply: nonempty_map; exact: rect_neq0 rows_gt0 rectM.
have [_ /andP[/mapP[row rowM ->] _]] := ranges_max_seq_max M0.
have /flattenP[row' row'M g_row'] := g_in _ rowM.
by have /allP/(_ _ row'M)/allP := low; apply.
Qed.

End NativeBoundaries.




(** X7.  When the subtraction of [T], on the entries of the matrix, does
    not wrap around and gives 0 exactly for equal operands, the loops of
    [savage] keep the shape of the matrix, leave no negative entry, and
    leave 0 as the least entry of every column. *)
Theorem regret_invariants_without_wrap (T : realDomainType)
    (sub : T -> T -> T) rows columns (M : matrix T) :
  (0 < rows)%N -> rect rows columns M ->
  Native.sub_no_wrap sub M -> Native.sub_zero sub M ->
  exists R,
    [/\ Native.DecisionCriteria.regret_transform sub rows columns M = Some R,
        Native.DecisionCriterion.regret_transform sub rows columns M
        = Some R,
        rect rows columns R,
        forall i c, (i < rows)%N -> (c < columns)%N -> 0 <= cell R i c
      & forall c, (c < columns)%N -> is_min 0 (column R c)].
Proof.
move=> r0 rM no_wrap zero; exists (Native.regret sub rows columns M); split.
- exact: native_regret_transformE.
- exact: (native_regret_transformE sub r0 rM).
- exact: native_rect_regret.
- by move=> i c; exact: native_regret_ge0.
- by move=> c; exact: native_column_regret_min0.
Qed.

Lemma regret_invariants_without_wrap_witness :
  exists R,
    [/\ Native.DecisionCriteria.regret_transform (fun x y => x - y) 4 5
          reference = Some R,
        Native.DecisionCriterion.regret_transform (fun x y => x - y) 4 5
          reference = Some R,
        rect 4 5 R,
        forall i c, (i < 4)%N -> (c < 5)%N -> 0 <= cell R i c
      & forall c, (c < 5)%N -> is_min 0 (column R c)].
Proof.
apply: (@regret_invariants_without_wrap _ _ 4 5 reference) => //.
  by move=> x y _ _; rewrite subr_ge0.
by move=> x y _ _ _; rewrite subr_eq0.
Defined.

(** X8.  Under the same two conditions on the subtraction of [T],
    [savage] returns 0 exactly when some row holds the maximum of every
    column: a strategy that is best in every state of nature. *)
Theorem savage_zero_iff_dominant_without_wrap (T : realDomainType)
    (sub : T -> T -> T) rows columns (M : matrix T) :
  (0 < rows)%N -> (0 < columns)%N -> rect rows columns M ->
  Native.sub_no_wrap sub M -> Native.sub_zero sub M ->
  (Native.DecisionCriteria.savage sub rows columns M == Some 0)
  = has (dominant columns M) (iota 0 rows)
  /\ (Native.DecisionCriterion.savage sub rows columns M == Some 0)
     = has (dominant columns M) (iota 0 rows).
Proof.
move=> r0 c0 rM no_wrap zero.
by rewrite native_range_savageE (native_savage_eq0 r0 rM no_wrap zero c0).
Qed.

Lemma savage_zero_iff_dominant_without_wrap_witness :
  (Native.DecisionCriteria.savage (fun x y => x - y) 4 5 reference == Some 0)
  = has (dominant 5 reference) (iota 0 4)
  /\ (Native.DecisionCriterion.savage (fun x y => x - y) 4 5 reference
      == Some 0)
     = has (dominant 5 reference) (iota 0 4).
Proof.
apply: (@savage_zero_iff_dominant_without_wrap _ _ 4 5 reference) => //.
  by move=> x y _ _; rewrite subr_ge0.
by move=> x y _ _ _; rewrite subr_eq0.
Defined.

(** X20.  Under the same two conditions on the subtraction of [T], with a
    single row or with a single column [savage] returns 0, not the entry:
    the only strategy, or the best one in the only state of nature, has no
    regret. *)
Theorem savage_single_without_wrap (T : realDomainType)
    (sub : T -> T -> T) rows columns (M : matrix T) :
  (0 < rows)%N -> (0 < columns)%N -> rect rows columns M ->
  Native.sub_no_wrap sub M -> Native.sub_zero sub M ->
  (rows == 1%N) || (columns == 1%N) ->
  Native.DecisionCriteria.savage sub rows columns M = Some 0
  /\ Native.DecisionCriterion.savage sub rows columns M = Some 0.
Proof.
move=> r0 c0 rM no_wrap zero single; rewrite native_range_savageE.
suff /eqP-> : Native.DecisionCriteria.savage sub rows columns M == Some 0.
  by [].
rewrite (native_savage_eq0 r0 rM no_wrap zero c0); apply/hasP.
case/orP: single => /eqP eq1.
  exists 0%N; first by rewrite mem_iota.
  apply/allP => c _; move: rM; rewrite /rect eq1.
  case: (M) => [|row [|row' M']] //= _.
  by rewrite /is_max /cell /column /= mem_seq1 eqxx lexx.
have /andP[/mapP[row /(nthP [::])[i lt_i <-] eq_max] _] :=
  col_max_is_max r0 rM 0.
exists i; first by rewrite mem_iota /= add0n -(rect_size rM).
rewrite /dominant eq1 /= andbT /cell -eq_max.
exact: col_max_is_max r0 rM 0.
Qed.

Lemma savage_single_without_wrap_witness :
  Native.DecisionCriteria.savage (fun x y => x - y) 3 1
    [:: [:: 4]; [:: 9]; [:: 6 : int]] = Some 0
  /\ Native.DecisionCriterion.savage (fun x y => x - y) 3 1
       [:: [:: 4]; [:: 9]; [:: 6 : int]] = Some 0.
Proof.
apply: (@savage_single_without_wrap _ _ 3 1
          [:: [:: 4]; [:: 9]; [:: 6 : int]]) => //.
  by move=> x y _ _; rewrite subr_ge0.
by move=> x y _ _ _; rewrite subr_eq0.
Defined.
